(** * The live-reload development server of quarto-cli

    A shallow embedding of [src/core/http-devserver.ts]: the client
    registry, the two broadcast loops (log frames and reload frames), the
    websocket handshake and the injection of the bootstrap script into served
    bytes, together with the properties its design document states.

    Conventions.
    - A JavaScript string is the list of its UTF-16 code units.
    - A [Uint8Array] is a reference into a heap of byte lists, so that
      "allocates a new buffer" and "does not touch the input" can be stated.
    - Code that sends, closes or upgrades runs in a monad [M] that threads the
      registry and a log of the calls made on the host, and that has
      JavaScript's [throw], [try]/[catch] and [finally].
    - One call of a handler is followed from its start to its end; other
      handlers of the event loop are not interleaved with it. *)

From Stdlib Require Import List ZArith Lia String Ascii Bool Arith.
Import ListNotations.

Set Implicit Arguments.

(** ** JavaScript values used by the server *)

Module JS.

(** A string: its UTF-16 code units, each in [0, 65535]. *)
Definition str := list Z.

(** A source literal that holds ASCII characters only. *)
Definition lit (s : string) : str :=
  map (fun a => Z.of_nat (nat_of_ascii a)) (list_ascii_of_string s).

(** The literal ["\n"]. *)
Definition newline : str := [10%Z].

(** [!n] on a number. *)
Definition not_number (n : Z) : bool := (n =? 0)%Z.

(** [a || b] on an optional string: [undefined] and the empty string are
    falsy. *)
Definition or_str (a : option str) (b : str) : str :=
  match a with
  | None => b
  | Some [] => b
  | Some s => s
  end.

(** [Array.prototype.join] on an array of strings. *)
Fixpoint join (sep : str) (parts : list str) : str :=
  match parts with
  | [] => []
  | [p] => p
  | p :: rest => p ++ sep ++ join sep rest
  end.

(** [Array.prototype.splice(start, 1)]: nothing is removed when [start] is
    not an index of the array. *)
Definition splice1 {A} (start : nat) (l : list A) : list A :=
  firstn start l ++ skipn (S start) l.

End JS.

(** ** [TextEncoder.prototype.encode]

    The string is read as scalar values (a lead surrogate followed by a trail
    surrogate is one supplementary code point, any other surrogate becomes
    U+FFFD) and each one is written in UTF-8. *)

Module TextEncoder.

Local Open Scope Z_scope.

Definition is_lead (c : Z) : bool := (0xD800 <=? c) && (c <=? 0xDBFF).
Definition is_trail (c : Z) : bool := (0xDC00 <=? c) && (c <=? 0xDFFF).

Definition utf8 (cp : Z) : list Z :=
  if cp <? 0x80 then [cp]
  else if cp <? 0x800 then
    [Z.lor 0xC0 (Z.shiftr cp 6); Z.lor 0x80 (Z.land cp 0x3F)]
  else if cp <? 0x10000 then
    [Z.lor 0xE0 (Z.shiftr cp 12);
     Z.lor 0x80 (Z.land (Z.shiftr cp 6) 0x3F);
     Z.lor 0x80 (Z.land cp 0x3F)]
  else
    [Z.lor 0xF0 (Z.shiftr cp 18);
     Z.lor 0x80 (Z.land (Z.shiftr cp 12) 0x3F);
     Z.lor 0x80 (Z.land (Z.shiftr cp 6) 0x3F);
     Z.lor 0x80 (Z.land cp 0x3F)].

Definition pair_code_point (hi lo : Z) : Z :=
  0x10000 + Z.shiftl (hi - 0xD800) 10 + (lo - 0xDC00).

Fixpoint encode (s : JS.str) : list Z :=
  match s with
  | [] => []
  | c :: rest =>
      if is_lead c then
        match rest with
        | d :: rest' =>
            if is_trail d then utf8 (pair_code_point c d) ++ encode rest'
            else utf8 0xFFFD ++ encode rest
        | [] => utf8 0xFFFD
        end
      else if is_trail c then utf8 0xFFFD ++ encode rest
      else utf8 c ++ encode rest
  end.

End TextEncoder.

(** ** Typed arrays

    The heap holds the contents of every [Uint8Array] allocated so far; a
    reference is a position in it. *)

Module Uint8Array.

Definition ref := nat.
Definition Heap := list (list Z).

Definition contents (h : Heap) (r : ref) : option (list Z) := nth_error h r.

(** [new Uint8Array(n)]: a fresh array of [n] zero bytes. *)
Definition new (n : nat) (h : Heap) : ref * Heap :=
  (List.length h, h ++ [repeat 0%Z n]).

Fixpoint store (r : ref) (v : list Z) (h : Heap) : Heap :=
  match h, r with
  | [], _ => []
  | _ :: h', O => v :: h'
  | a :: h', S r' => a :: store r' v h'
  end.

(** [a.length]; [None] for a reference that is not in the heap. *)
Definition length (h : Heap) (r : ref) : option nat :=
  option_map (@List.length Z) (contents h r).

(** [target.set(source, offset)]: the bytes of [source] are written over
    [target] from [offset] on; a [RangeError] ([None]) when they do not
    fit. *)
Definition set (target source : ref) (offset : nat) (h : Heap)
  : option Heap :=
  match contents h target, contents h source with
  | Some t, Some src =>
      if offset + List.length src <=? List.length t then
        Some (store target
                (firstn offset t ++ src ++ skipn (offset + List.length src) t)
                h)
      else None
  | _, _ => None
  end.

(** [new TextEncoder().encode(s)]: a fresh array that holds the UTF-8
    bytes of [s]. *)
Definition encode (s : JS.str) (h : Heap) : ref * Heap :=
  (List.length h, h ++ [TextEncoder.encode s]).

End Uint8Array.

(** ** The bootstrap script *)

(** A value of the parameter object given to a template. *)
Inductive EjsValue :=
| EjsString (s : JS.str)
| EjsNumber (n : Z).

(** One [renderEjs(resourcePath(name), data)] call of the source. *)
Record Fragment := {
  fragment_resource : JS.str;
  fragment_data : list (string * EjsValue)
}.

Section Script.

(** [FormatPandoc] and [isRevealjsOutput] of [../config], [renderEjs],
    [resourcePath] and [kLocalhost] of [./ejs.ts], [./resources.ts] and
    [./port.ts] are collaborators of this file. *)
Variable FormatPandoc : Type.
Variable isRevealjsOutput : FormatPandoc -> bool.
Variable renderEjs : JS.str -> list (string * EjsValue) -> JS.str.
Variable resourcePath : JS.str -> JS.str.
Variable kLocalhost : JS.str.

Record Format := { pandoc : FormatPandoc }.

Definition core_fragment (port : Z) : Fragment :=
  {| fragment_resource := JS.lit "editor/devserver/devserver-core.html";
     fragment_data :=
       [("localhost"%string, EjsString kLocalhost);
        ("port"%string, EjsNumber port)] |}.

Definition revealjs_fragment : Fragment :=
  {| fragment_resource := JS.lit "editor/devserver/devserver-revealjs.html";
     fragment_data := [] |}.

Definition viewer_fragment (inputFile : JS.str) : Fragment :=
  {| fragment_resource := JS.lit "editor/devserver/devserver-viewer.html";
     fragment_data := [("inputFile"%string, EjsString inputFile)] |}.

Definition render (f : Fragment) : JS.str :=
  renderEjs (resourcePath (fragment_resource f)) (fragment_data f).

(** [isPresentation && format && isRevealjsOutput(format.pandoc)]. *)
Definition is_revealjs_presentation
    (format : option Format) (isPresentation : option bool) : bool :=
  match isPresentation, format with
  | Some true, Some f => isRevealjsOutput (pandoc f)
  | _, _ => false
  end.

(** The array [devserver] of [devServerClientScript] when it is joined, as
    the template calls that filled it. *)
Definition devserver_fragments
    (port : Z) (inputFile : option JS.str) (format : option Format)
    (isPresentation : option bool) : list Fragment :=
  let devserver := [core_fragment port] in
  if is_revealjs_presentation format isPresentation then
    match format with
    | Some f =>
        if isRevealjsOutput (pandoc f)
        then devserver ++ [revealjs_fragment]
        else devserver
    | None => devserver
    end
  else devserver ++ [viewer_fragment (JS.or_str inputFile [])].

Definition devServerClientScript
    (port : Z) (inputFile : option JS.str) (format : option Format)
    (isPresentation : option bool) : JS.str :=
  JS.join JS.newline
    (map render (devserver_fragments port inputFile format isPresentation)).

(** [injectClient] of the server created by [httpDevServer(port,
    isPresentation)]. [None] stands for an exception. *)
Definition injectClient (port : Z) (isPresentation : option bool)
    (file : Uint8Array.ref) (inputFile : option JS.str)
    (format : option Format) (h : Uint8Array.Heap)
  : option (Uint8Array.ref * Uint8Array.Heap) :=
  let '(scriptContents, h1) :=
    Uint8Array.encode
      (JS.newline
         ++ devServerClientScript port inputFile format isPresentation) h in
  match Uint8Array.length h1 file, Uint8Array.length h1 scriptContents with
  | Some file_length, Some scriptContents_length =>
      let '(fileWithScript, h2) :=
        Uint8Array.new (file_length + scriptContents_length) h1 in
      match Uint8Array.set fileWithScript file 0 h2 with
      | None => None
      | Some h3 =>
          match Uint8Array.set fileWithScript scriptContents file_length h3 with
          | None => None
          | Some h4 => Some (fileWithScript, h4)
          end
      end
  | _, _ => None
  end.

End Script.

(** ** The host: sockets, requests and the calls made on them *)

(** A thrown value. *)
Inductive Error :=
| TypeError
| RangeError
| TransportError (code : nat).

(** A websocket. [readyState] is the state the socket is in; the interface
    constants [CONNECTING], [OPEN], [CLOSING] and [CLOSED] are readable on
    every instance and have the values the WebSocket interface fixes. *)
Record WebSocket := { socket_id : nat; readyState : Z }.

Definition CONNECTING (_ : WebSocket) : Z := 0.
Definition OPEN (_ : WebSocket) : Z := 1.
Definition CLOSING (_ : WebSocket) : Z := 2.
Definition CLOSED (_ : WebSocket) : Z := 3.

Record Request := { url : JS.str }.

Inductive Response := UpgradeResponse (id : nat).

(** The fields of a log record that an object spread copies. *)
Record LogRecord := {
  msg : JS.str;
  level : Z;
  levelName : JS.str;
  loggerName : JS.str
}.

(** A call made on the host, in the order the calls are made. *)
Inductive Event :=
| Send (s : WebSocket) (frame : JS.str)
| Close (s : WebSocket)
| Diagnostic (e : Error)
| Upgrade (req : Request).

(** What the host answers to a call, given the calls made before it:
    [Some e] when [send] or [close] throws [e], [inl e] when the upgrade
    throws [e]. *)
Record Host := {
  send_outcome : list Event -> WebSocket -> JS.str -> option Error;
  close_outcome : list Event -> WebSocket -> option Error;
  upgrade_outcome : list Event -> Request -> Error + (WebSocket * Response)
}.

(** ** The server state and its monad *)

Record Client := { path : JS.str; socket : WebSocket }.

Record Server := { clients : list Client; calls : list Event }.

Inductive Completion (A : Type) :=
| Normal (a : A)
| Throw (e : Error).
Arguments Throw {A} e.

Definition M (A : Type) := Server -> Completion A * Server.

Definition ret {A} (a : A) : M A := fun s => (Normal a, s).

Definition throw {A} (e : Error) : M A := fun s => (Throw e, s).

Definition bind {A B} (m : M A) (k : A -> M B) : M B :=
  fun s =>
    match m s with
    | (Normal a, s') => k a s'
    | (Throw e, s') => (Throw e, s')
    end.

Declare Scope js_scope.
Delimit Scope js_scope with js.
Notation "x <- m ;; k" := (bind m (fun x => k))
  (at level 61, m at next level, right associativity) : js_scope.
Notation "m ;; k" := (bind m (fun _ => k))
  (at level 61, right associativity) : js_scope.
Local Open Scope js_scope.

(** [try { m } catch (e) { handler e }]. *)
Definition try_catch {A} (m : M A) (handler : Error -> M A) : M A :=
  fun s =>
    match m s with
    | (Normal a, s') => (Normal a, s')
    | (Throw e, s') => handler e s'
    end.

(** [try { m } finally { fin }]: [fin] runs however [m] completes, and the
    completion of [m] stands unless [fin] throws. *)
Definition try_finally {A} (m : M A) (fin : M unit) : M A :=
  fun s =>
    match m s with
    | (r, s') =>
        match fin s' with
        | (Normal _, s'') => (r, s'')
        | (Throw e, s'') => (Throw e, s'')
        end
    end.

(** [if (c) { m }]. *)
Definition when (c : bool) (m : M unit) : M unit :=
  if c then m else ret tt.

(** [for (let i = n - 1; i >= 0; i--) { body i }], with [n] read once. *)
Fixpoint for_down (n : nat) (body : nat -> M unit) : M unit :=
  match n with
  | O => ret tt
  | S i => body i ;; for_down i body
  end.

Definition record (ev : Event) : M unit :=
  fun s => (Normal tt, {| clients := clients s; calls := calls s ++ [ev] |}).

(** [clients.length]. *)
Definition clients_length : M nat :=
  fun s => (Normal (List.length (clients s)), s).

(** [clients[i].socket]: reading a property of [undefined] is a
    [TypeError]. *)
Definition clients_socket (i : nat) : M WebSocket :=
  fun s =>
    match nth_error (clients s) i with
    | Some c => (Normal (socket c), s)
    | None => (Throw TypeError, s)
    end.

(** [clients.push(c)]. *)
Definition clients_push (c : Client) : M unit :=
  fun s => (Normal tt, {| clients := clients s ++ [c]; calls := calls s |}).

(** [clients.splice(i, 1)]. *)
Definition clients_splice (i : nat) : M unit :=
  fun s => (Normal tt, {| clients := JS.splice1 i (clients s); calls := calls s |}).

(** Modelled from the spec: [maybeDisplaySocketError] of [./http.ts], which
    is not part of the sources at hand. The error is reported on the
    diagnostic side channel and the call returns. *)
Definition maybeDisplaySocketError (e : Error) : M unit :=
  record (Diagnostic e).

Section Server.

Variable host : Host.

(** [JSON.stringify({ ...logRecord, msgFormatted: msg })]: the object holds
    strings and a number, which always serialise. *)
Variable stringify_log : LogRecord -> JS.str -> JS.str.

(** [socket.send(frame)]. *)
Definition socket_send (sock : WebSocket) (frame : JS.str) : M unit :=
  fun s =>
    let s' := {| clients := clients s; calls := calls s ++ [Send sock frame] |} in
    match send_outcome host (calls s) sock frame with
    | None => (Normal tt, s')
    | Some e => (Throw e, s')
    end.

(** [socket.close()]. *)
Definition socket_close (sock : WebSocket) : M unit :=
  fun s =>
    let s' := {| clients := clients s; calls := calls s ++ [Close sock] |} in
    match close_outcome host (calls s) sock with
    | None => (Normal tt, s')
    | Some e => (Throw e, s')
    end.

(** [Deno.upgradeWebSocket(req)]. *)
Definition upgradeWebSocket (req : Request) : M (WebSocket * Response) :=
  fun s =>
    let s' := {| clients := clients s; calls := calls s ++ [Upgrade req] |} in
    match upgrade_outcome host (calls s) req with
    | inr r => (Normal r, s')
    | inl e => (Throw e, s')
    end.

(** The frame of a log record. *)
Definition log_frame (logRecord : LogRecord) (msg : JS.str) : JS.str :=
  JS.lit "log:" ++ stringify_log logRecord msg.

(** The handler given to [LogEventsHandler.onLog]. *)
Definition onLog (logRecord : LogRecord) (msg : JS.str) : M unit :=
  n <- clients_length ;;
  for_down n (fun i =>
    socket <- clients_socket i ;;
    try_catch
      (socket_send socket (log_frame logRecord msg))
      (fun _e => ret tt)).

(** [connect]: the value is the one the returned promise resolves to. *)
Definition connect (req : Request) : M (option Response) :=
  try_catch
    (r <- upgradeWebSocket req ;;
     let '(socket, response) := r in
     clients_push {| path := url req; socket := socket |} ;;
     ret (Some response))
    (fun e =>
       maybeDisplaySocketError e ;;
       ret None).

(** [reloadClients]: [reloadTarget] is [""] when the argument is
    [undefined]. *)
Definition reloadClients (reloadTarget : option JS.str) : M unit :=
  let reloadTarget :=
    match reloadTarget with Some t => t | None => JS.lit "" end in
  n <- clients_length ;;
  for_down n (fun i =>
    socket <- clients_socket i ;;
    try_finally
      (try_catch
         (let message := JS.lit "reload" in
          socket_send socket (message ++ reloadTarget))
         (fun e => maybeDisplaySocketError e))
      (when (JS.not_number (CLOSED socket) && JS.not_number (CLOSING socket))
         (try_catch
            (socket_close socket)
            (fun e => maybeDisplaySocketError e)) ;;
       clients_splice i)).

End Server.

(** ** The traversal of the registry

    Both broadcasts walk the registry in the same way: the index runs from
    [clients.length - 1] down to [0], the entry at the index is visited, and
    the entry may be spliced out before the index moves on. [traverse_down]
    is that walk with the work on the socket left out: [remove i] tells
    whether the entry at index [i] is spliced out, [visited] collects the
    index and the entry of every visit, and [None] is the [TypeError] of
    reading [clients[i]] where there is no entry. *)

Fixpoint traverse_down (remove : nat -> bool) (n : nat) (cs : list Client)
    (visited : list (nat * Client)) : option (list (nat * Client) * list Client) :=
  match n with
  | O => Some (visited, cs)
  | S i =>
      match nth_error cs i with
      | None => None
      | Some c =>
          traverse_down remove i
            (if remove i then JS.splice1 i cs else cs)
            (visited ++ [(i, c)])
      end
  end.

Definition reverse_traversal (remove : nat -> bool) (cs : list Client)
  : option (list (nat * Client) * list Client) :=
  traverse_down remove (List.length cs) cs [].

(** The entries of a registry with their indices. *)
Definition indexed (cs : list Client) : list (nat * Client) :=
  combine (seq 0 (List.length cs)) cs.

(** ** The loop of the two broadcasts

    [reloadClients] and the log handler run the same loop: the index goes
    from [clients.length - 1] down to [0]; the socket of the entry at the
    index is sent a frame inside a [try]; a [catch] hands the error to a
    failure handler; and the entry may be spliced out in a [finally] before
    the index moves on. [broadcast_walk] is that loop with the frame, the
    failure handler and the choice of the indices to splice out as
    parameters. *)

(** The two failure handlers of the source: the one of [reloadClients]
    reports the error, the one of the log handler drops it. *)
Definition failure_handler (report : bool) : Error -> M unit :=
  if report then (fun e => maybeDisplaySocketError e) else (fun _e => ret tt).

Definition broadcast_walk (host : Host) (frame : JS.str)
    (onFailure : Error -> M unit) (remove : nat -> bool) : M unit :=
  n <- clients_length ;;
  for_down n (fun i =>
    socket <- clients_socket i ;;
    try_finally
      (try_catch (socket_send host socket frame) onFailure)
      (when (remove i) (clients_splice i))).

(** ** Reading the log of calls *)

(** The [send] calls of a log, with their frames. *)
Fixpoint sends (tr : list Event) : list (WebSocket * JS.str) :=
  match tr with
  | [] => []
  | Send s frame :: tr' => (s, frame) :: sends tr'
  | _ :: tr' => sends tr'
  end.

(** The [close] calls of a log. *)
Fixpoint closes (tr : list Event) : list WebSocket :=
  match tr with
  | [] => []
  | Close s :: tr' => s :: closes tr'
  | _ :: tr' => closes tr'
  end.

(** The errors reported on the diagnostic channel. *)
Fixpoint diagnostics (tr : list Event) : list Error :=
  match tr with
  | [] => []
  | Diagnostic e :: tr' => e :: diagnostics tr'
  | _ :: tr' => diagnostics tr'
  end.

(** The frame a call [reloadClients(reloadTarget)] is to send. *)
Definition reload_frame (reloadTarget : option JS.str) : JS.str :=
  JS.lit "reload" ++ match reloadTarget with Some t => t | None => [] end.

(** ** A small scenario

    Three clients A, B and C registered in that order, on a host where every
    send to B throws, every close throws, and the upgrade of a request for
    ["/refused"] is rejected. *)

Module Scenario.

Definition socketA : WebSocket := {| socket_id := 1; readyState := 1 |}.
Definition socketB : WebSocket := {| socket_id := 2; readyState := 1 |}.
Definition socketC : WebSocket := {| socket_id := 3; readyState := 1 |}.

Definition clientA : Client := {| path := JS.lit "/a"; socket := socketA |}.
Definition clientB : Client := {| path := JS.lit "/b"; socket := socketB |}.
Definition clientC : Client := {| path := JS.lit "/c"; socket := socketC |}.

Definition host : Host :=
  {| send_outcome := fun _ s _ =>
       if Nat.eqb (socket_id s) 2 then Some (TransportError 32) else None;
     close_outcome := fun _ _ => Some (TransportError 9);
     upgrade_outcome := fun tr req =>
       if list_eq_dec Z.eq_dec (url req) (JS.lit "/refused")
       then inl TypeError
       else inr ({| socket_id := 10 + List.length tr; readyState := 1 |},
                 UpgradeResponse (List.length tr)) |}.

Definition stringify_log (r : LogRecord) (formatted : JS.str) : JS.str :=
  JS.lit "{" ++ msg r ++ JS.lit "," ++ formatted ++ JS.lit "}".

Definition record : LogRecord :=
  {| msg := JS.lit "rendered"; level := 20;
     levelName := JS.lit "INFO"; loggerName := JS.lit "default" |}.

Definition registry : Server :=
  {| clients := [clientA; clientB; clientC]; calls := [] |}.

Definition one_open_client : Server :=
  {| clients := [clientA]; calls := [] |}.

Definition refused : Request := {| url := JS.lit "/refused" |}.
Definition accepted : Request := {| url := JS.lit "/doc.html" |}.

(** Templates that show which resource was rendered with which data. *)
Definition renderEjs (template : JS.str) (data : list (string * EjsValue))
  : JS.str :=
  JS.lit "<" ++ template
    ++ flat_map (fun kv => match snd kv with
                           | EjsString s => JS.lit " " ++ s
                           | EjsNumber _ => JS.lit " #"
                           end) data
    ++ JS.lit ">".

Definition resourcePath (name : JS.str) : JS.str := JS.lit "/share/" ++ name.

Definition heap : Uint8Array.Heap := [[60; 112; 62]%Z].

Definition kLocalhost : JS.str := JS.lit "127.0.0.1".

End Scenario.

(** ** The request headers and [handle]

    [handle] reads nothing of a request but its headers, so it is given the
    header list: the names and values in the order they were received. *)

Module Headers.

(** Byte-lowercase of a code unit: the letters A to Z only. *)
Definition lower (c : Z) : Z :=
  if ((0x41 <=? c) && (c <=? 0x5A))%Z then (c + 0x20)%Z else c.

Definition lowercase (s : JS.str) : JS.str := map lower s.

(** [a === b] on strings. *)
Definition str_eqb (a b : JS.str) : bool :=
  if list_eq_dec Z.eq_dec a b then true else false.

(** Whether a header goes by [name], letter case apart. *)
Definition named (name : JS.str) (header : JS.str * JS.str) : bool :=
  str_eqb (lowercase (fst header)) (lowercase name).

(** [headers.get(name)]: [null] when no header goes by the name, else the
    values of those that do, in order, joined by a comma and a space. *)
Definition get (headers : list (JS.str * JS.str)) (name : JS.str)
  : option JS.str :=
  match filter (named name) headers with
  | [] => None
  | found => Some (JS.join (JS.lit ", ") (map snd found))
  end.

End Headers.

(** [handle]: [req.headers.get("upgrade") === "websocket"]. *)
Definition handle (headers : list (JS.str * JS.str)) : bool :=
  match Headers.get headers (JS.lit "upgrade") with
  | Some value => Headers.str_eqb value (JS.lit "websocket")
  | None => false
  end.

(** ** Well-formed strings and bytes *)

(** The code units of a string are 16-bit values. *)
Definition code_units (s : JS.str) : Prop :=
  Forall (fun c => (0 <= c < 0x10000)%Z) s.

(** Code units that are ASCII characters. *)
Definition ascii_only (s : JS.str) : Prop :=
  Forall (fun c => (0 <= c < 0x80)%Z) s.

(** The elements of a [Uint8Array] are 8-bit values. *)
Definition octets (l : list Z) : Prop :=
  Forall (fun b => (0 <= b < 0x100)%Z) l.

(** ** The calls a broadcast is to make *)

(** The calls of a reload broadcast that starts after the calls [tr] and
    goes through [cs], the clients in the order they are visited: each one
    is sent the frame, and the error of a send that throws is reported
    before the next client is visited. *)
Fixpoint reload_calls (host : Host) (frame : JS.str) (tr : list Event)
    (cs : list Client) : list Event :=
  match cs with
  | [] => []
  | c :: rest =>
      let turn :=
        Send (socket c) frame
          :: match send_outcome host tr (socket c) frame with
             | Some e => [Diagnostic e]
             | None => []
             end in
      turn ++ reload_calls host frame (tr ++ turn) rest
  end.

(** The errors of the sends that throw in such a broadcast. *)
Fixpoint send_failures (host : Host) (frame : JS.str) (tr : list Event)
    (cs : list Client) : list Error :=
  match cs with
  | [] => []
  | c :: rest =>
      match send_outcome host tr (socket c) frame with
      | Some e =>
          e :: send_failures host frame
                 (tr ++ [Send (socket c) frame; Diagnostic e]) rest
      | None =>
          send_failures host frame (tr ++ [Send (socket c) frame]) rest
      end
  end.

(** ** The life of a server

    [httpDevServer] starts with an empty registry; from then on its owner
    calls [connect], [reloadClients] and the log handler, one call after the
    other. *)

Definition httpDevServer : Server := {| clients := []; calls := [] |}.

Inductive Call :=
| CallConnect (req : Request)
| CallReloadClients (reloadTarget : option JS.str)
| CallLog (logRecord : LogRecord) (msg : JS.str).

(** The state a call leaves. *)
Definition after (host : Host) (stringify_log : LogRecord -> JS.str -> JS.str)
    (c : Call) (s : Server) : Server :=
  match c with
  | CallConnect req => snd (connect host req s)
  | CallReloadClients reloadTarget => snd (reloadClients host reloadTarget s)
  | CallLog logRecord msg => snd (onLog host stringify_log logRecord msg s)
  end.

(** The state a sequence of calls leaves, the first call first. *)
Definition run (host : Host) (stringify_log : LogRecord -> JS.str -> JS.str)
    (cs : list Call) (s : Server) : Server :=
  fold_left (fun st c => after host stringify_log c st) cs s.

(** The client [c] is made of the socket that the host returned for an
    upgrade recorded among the calls of [s], and of the address of the
    request that was upgraded. *)
Definition from_handshake (host : Host) (s : Server) (c : Client) : Prop :=
  exists before later req response,
    calls s = before ++ Upgrade req :: later
    /\ upgrade_outcome host before req = inr (socket c, response)
    /\ path c = url req.

(** ** More sample data *)

Module Samples.

(** A host on which no call throws; the socket of an upgrade is numbered
    after the calls made so far. *)
Definition quiet : Host :=
  {| send_outcome := fun _ _ _ => None;
     close_outcome := fun _ _ => None;
     upgrade_outcome := fun tr req =>
       inr ({| socket_id := List.length tr; readyState := 1 |},
            UpgradeResponse (List.length tr)) |}.

Definition browser_headers : list (JS.str * JS.str) :=
  [(JS.lit "Host", JS.lit "localhost:4200");
   (JS.lit "Connection", JS.lit "Upgrade");
   (JS.lit "Upgrade", JS.lit "websocket")].

Definition page_headers : list (JS.str * JS.str) :=
  [(JS.lit "Host", JS.lit "localhost:4200");
   (JS.lit "Accept", JS.lit "text/html")].

Definition page : Request := {| url := JS.lit "/index.html" |}.

(** An e with an acute accent, then a surrogate pair. *)
Definition accented : JS.str := [0xE9; 0xD83D; 0xDE00]%Z.

End Samples.

(** * Properties *)

(** ** Lists, splicing and the log of calls *)

Lemma splice1_last {A} (l : list A) (x : A) (suffix : list A) :
  JS.splice1 (List.length l) ((l ++ [x]) ++ suffix) = l ++ suffix.
Proof.
  unfold JS.splice1.
  rewrite <- app_assoc.
  rewrite firstn_app, Nat.sub_diag, firstn_all, firstn_O, app_nil_r.
  replace (S (List.length l)) with (List.length l + 1) by lia.
  rewrite skipn_app, skipn_all2 by lia.
  replace (List.length l + 1 - List.length l) with 1 by lia.
  reflexivity.
Qed.

Lemma nth_error_last {A} (l : list A) (x : A) (suffix : list A) :
  nth_error ((l ++ [x]) ++ suffix) (List.length l) = Some x.
Proof.
  rewrite <- app_assoc, nth_error_app2, Nat.sub_diag by lia.
  reflexivity.
Qed.

Lemma nth_error_in_range {A} (l : list A) (n : nat) (x : A) :
  nth_error l n = Some x -> n < List.length l.
Proof. intros H. apply nth_error_Some. congruence. Qed.

Lemma firstn_succ {A} (l : list A) (n : nat) (x : A) :
  nth_error l n = Some x -> firstn (S n) l = firstn n l ++ [x].
Proof.
  revert n; induction l as [|a l IH]; intros [|n] H; cbn in *;
    try discriminate.
  - congruence.
  - now rewrite (IH _ H).
Qed.

Lemma combine_append {A B} (a a' : list A) (b b' : list B) :
  List.length a = List.length b ->
  combine (a ++ a') (b ++ b') = combine a b ++ combine a' b'.
Proof.
  revert b; induction a as [|x a IH]; intros [|y b] H; cbn in *;
    try discriminate; [reflexivity|].
  now rewrite IH by lia.
Qed.

Lemma indexed_snoc (cs : list Client) (c : Client) :
  indexed (cs ++ [c]) = indexed cs ++ [(List.length cs, c)].
Proof.
  unfold indexed.
  rewrite length_app, seq_app. cbn.
  rewrite combine_append by now rewrite length_seq.
  reflexivity.
Qed.

Lemma indexed_In (cs : list Client) (i : nat) (c : Client) :
  In (i, c) (indexed cs) <-> nth_error cs i = Some c.
Proof.
  induction cs as [|a cs IH] using rev_ind.
  - cbn. destruct i; cbn; split; intros H; try discriminate; contradiction.
  - rewrite indexed_snoc, in_app_iff, IH. cbn.
    destruct (Nat.lt_ge_cases i (List.length cs)) as [Hlt|Hge].
    + rewrite nth_error_app1 by lia. split; [intros [H|[H|[]]]|]; auto.
      inversion H; lia.
    + rewrite nth_error_app2 by lia. split.
      * intros [H|[H|[]]].
        -- apply nth_error_in_range in H. lia.
        -- inversion H; subst. now rewrite Nat.sub_diag.
      * intros H. right. left.
        destruct (i - List.length cs) as [|k] eqn:E; cbn in H.
        -- f_equal; [lia|congruence].
        -- destruct k; discriminate.
Qed.

Lemma indexed_fst (cs : list Client) :
  map fst (indexed cs) = seq 0 (List.length cs).
Proof.
  unfold indexed.
  induction cs as [|c cs IH] using rev_ind; [reflexivity|].
  fold (indexed (cs ++ [c])). rewrite indexed_snoc, map_app, length_app, seq_app.
  unfold indexed. now rewrite IH.
Qed.

Lemma indexed_snd (cs : list Client) : map snd (indexed cs) = cs.
Proof.
  induction cs as [|c cs IH] using rev_ind; [reflexivity|].
  now rewrite indexed_snoc, map_app, IH.
Qed.

Lemma sends_app (a b : list Event) : sends (a ++ b) = sends a ++ sends b.
Proof.
  induction a as [|[] a IH]; cbn; now rewrite ?IH.
Qed.

Lemma closes_app (a b : list Event) : closes (a ++ b) = closes a ++ closes b.
Proof.
  induction a as [|[] a IH]; cbn; now rewrite ?IH.
Qed.

Lemma for_down_succ (n : nat) (body : nat -> M unit) (s : Server) :
  for_down (S n) body s =
  match body n s with
  | (Normal _, s') => for_down n body s'
  | (Throw e, s') => (Throw e, s')
  end.
Proof. reflexivity. Qed.

(** ** The model on concrete inputs *)

(** A Latin-1 letter takes two bytes, a surrogate pair four, and a surrogate
    on its own becomes U+FFFD. *)
Example encode_samples :
  TextEncoder.encode [0xE9]%Z = [0xC3; 0xA9]%Z
  /\ TextEncoder.encode [0xD83D; 0xDE00]%Z = [0xF0; 0x9F; 0x98; 0x80]%Z
  /\ TextEncoder.encode [0xDE00; 0x41]%Z = [0xEF; 0xBF; 0xBD; 0x41]%Z
  /\ TextEncoder.encode (JS.lit "ok") = [111; 107]%Z.
Proof. repeat split. Qed.

(** [reloadClients("/x")] on A, B, C where the send to B throws: C, B and A
    are sent the frame in that order, the failure of B is reported, and the
    registry is empty. *)
Example reload_scenario :
  reloadClients Scenario.host (Some (JS.lit "/x")) Scenario.registry
  = (Normal tt,
     {| clients := [];
        calls := [Send Scenario.socketC (JS.lit "reload/x");
                  Send Scenario.socketB (JS.lit "reload/x");
                  Diagnostic (TransportError 32);
                  Send Scenario.socketA (JS.lit "reload/x")] |}).
Proof. reflexivity. Qed.

(** A log record on the same registry: three sends, one of which throws,
    and the three clients are still registered. *)
Example log_scenario :
  onLog Scenario.host Scenario.stringify_log Scenario.record (JS.lit "done")
    Scenario.registry
  = (Normal tt,
     {| clients := [Scenario.clientA; Scenario.clientB; Scenario.clientC];
        calls := [Send Scenario.socketC (JS.lit "log:{rendered,done}");
                  Send Scenario.socketB (JS.lit "log:{rendered,done}");
                  Send Scenario.socketA (JS.lit "log:{rendered,done}")] |}).
Proof. reflexivity. Qed.

(** An accepted handshake registers the client under the address of the
    request. *)
Example connect_scenario :
  connect Scenario.host Scenario.accepted Scenario.one_open_client
  = (Normal (Some (UpgradeResponse 0)),
     {| clients := [Scenario.clientA;
                    {| path := JS.lit "/doc.html";
                       socket := {| socket_id := 10; readyState := 1 |} |}];
        calls := [Upgrade Scenario.accepted] |}).
Proof. reflexivity. Qed.

(** [injectClient] on an empty array, with an input file and no format, on
    a server that is not in presentation mode: a newline, the core fragment,
    a newline and the viewer fragment rendered with the input file. *)
Example inject_scenario :
  injectClient (fun _ : unit => true) Scenario.renderEjs Scenario.resourcePath
    Scenario.kLocalhost 4200 (Some false) 0 (Some (JS.lit "input.qmd")) None [[]]
  = Some (2,
          [[];
           TextEncoder.encode
             (JS.lit (String "010"
                "</share/editor/devserver/devserver-core.html 127.0.0.1 #>")
              ++ JS.lit (String "010"
                   "</share/editor/devserver/devserver-viewer.html input.qmd>"));
           TextEncoder.encode
             (JS.lit (String "010"
                "</share/editor/devserver/devserver-core.html 127.0.0.1 #>")
              ++ JS.lit (String "010"
                   "</share/editor/devserver/devserver-viewer.html input.qmd>"))]).
Proof. reflexivity. Qed.

(** Splicing out index 1 alone while walking A, B, C. *)
Example traversal_scenario :
  reverse_traversal (fun i => Nat.eqb i 1) (clients Scenario.registry)
  = Some ([(2, Scenario.clientC); (1, Scenario.clientB); (0, Scenario.clientA)],
          [Scenario.clientA; Scenario.clientC]).
Proof. reflexivity. Qed.

(** ** The traversal *)

(** Entries above the index that is visited next do not matter to the
    walk: those at the [n] lowest positions are visited from the last one
    down, and the ones that were not spliced out stay in their order. *)
Lemma traverse_down_prefix (remove : nat -> bool) (below : list Client) :
  forall (above : list Client) (visited : list (nat * Client)),
    traverse_down remove (List.length below) (below ++ above) visited =
    Some (visited ++ rev (indexed below),
          map snd (filter (fun p => negb (remove (fst p))) (indexed below))
            ++ above).
Proof.
  induction below as [|c below IH] using rev_ind; intros above visited.
  - cbn. now rewrite app_nil_r.
  - rewrite length_app, Nat.add_comm. cbn [List.length plus traverse_down].
    rewrite nth_error_last, splice1_last.
    rewrite indexed_snoc, rev_app_distr, filter_app, map_app. cbn [rev app filter fst].
    destruct (remove (List.length below)); cbn [negb map snd].
    + rewrite IH, app_nil_r, <- app_assoc. reflexivity.
    + rewrite <- (app_assoc below [c] above), IH, <- !app_assoc. reflexivity.
Qed.

(** The walk on the indices alone, from the last index down to the first,
    splicing out the entry at the current index for an arbitrary set of
    indices, completes and visits every entry of the list it started from
    exactly once: the visits are the entries with their original indices,
    from the last to the first, so each index occurs once among them and
    none is left out; the list is left with the entries that were not
    spliced out. *)
Theorem reverse_traversal_visits_each_once :
  forall (remove : nat -> bool) (cs : list Client),
    exists visited remaining,
      reverse_traversal remove cs = Some (visited, remaining)
      /\ visited = rev (indexed cs)
      /\ map snd visited = rev cs
      /\ map fst visited = rev (seq 0 (List.length cs))
      /\ NoDup (map fst visited)
      /\ (forall i c, nth_error cs i = Some c <->
                      count_occ Nat.eq_dec (map fst visited) i = 1
                      /\ In (i, c) visited)
      /\ remaining =
         map snd (filter (fun p => negb (remove (fst p))) (indexed cs)).
Proof.
  intros remove cs.
  exists (rev (indexed cs)),
    (map snd (filter (fun p => negb (remove (fst p))) (indexed cs))).
  assert (Hfst : map fst (rev (indexed cs)) = rev (seq 0 (List.length cs)))
    by now rewrite map_rev, indexed_fst.
  assert (Hnodup : NoDup (map fst (rev (indexed cs)))).
  { rewrite Hfst. apply NoDup_rev, seq_NoDup. }
  repeat split; auto.
  - unfold reverse_traversal.
    pose proof (traverse_down_prefix remove cs [] []) as H.
    now rewrite !app_nil_r in H.
  - now rewrite map_rev, indexed_snd.
  - apply NoDup_count_occ'; auto.
    rewrite Hfst, <- in_rev, in_seq.
    apply nth_error_in_range in H. lia.
  - now rewrite <- in_rev, indexed_In.
  - intros [_ H]. now rewrite <- in_rev, indexed_In in H.
Qed.

(** ** The two broadcasts *)

Section Broadcasts.

Variable host : Host.
Variable stringify_log : LogRecord -> JS.str -> JS.str.

(** One turn of the loop of [reloadClients] on the last entry of the
    registry: the socket of that entry is sent the frame, nothing is
    closed, and the entry is gone. *)
Lemma reload_turn (target : option JS.str) (cs : list Client) (c : Client)
    (tr : list Event) :
  exists evs,
    (socket <- clients_socket (List.length cs) ;;
     try_finally
       (try_catch
          (socket_send host socket (reload_frame target))
          (fun e => maybeDisplaySocketError e))
       (when (JS.not_number (CLOSED socket) && JS.not_number (CLOSING socket))
          (try_catch (socket_close host socket)
             (fun e => maybeDisplaySocketError e)) ;;
        clients_splice (List.length cs)))
      {| clients := cs ++ [c]; calls := tr |}
    = (Normal tt, {| clients := cs; calls := tr ++ evs |})
    /\ sends evs = [(socket c, reload_frame target)]
    /\ closes evs = [].
Proof.
  pose proof (nth_error_last cs c []) as Hnth.
  pose proof (splice1_last cs c []) as Hsplice.
  rewrite app_nil_r in Hnth. rewrite !app_nil_r in Hsplice.
  unfold bind, clients_socket, try_finally, try_catch, socket_send, when,
    clients_splice, maybeDisplaySocketError, record, ret.
  cbn [clients calls]. rewrite Hnth.
  cbn [clients calls andb JS.not_number CLOSED Z.eqb].
  destruct (send_outcome host tr (socket c) (reload_frame target)) as [e|];
    cbn [clients calls]; rewrite Hsplice.
  - exists [Send (socket c) (reload_frame target); Diagnostic e].
    rewrite <- app_assoc. auto.
  - exists [Send (socket c) (reload_frame target)]. auto.
Qed.

(** The loop of [reloadClients] on a registry of [n] entries. *)
Lemma reload_loop (target : option JS.str) (cs : list Client) :
  forall tr, exists evs,
    for_down (List.length cs)
      (fun i =>
         socket <- clients_socket i ;;
         try_finally
           (try_catch
              (socket_send host socket (reload_frame target))
              (fun e => maybeDisplaySocketError e))
           (when (JS.not_number (CLOSED socket) && JS.not_number (CLOSING socket))
              (try_catch (socket_close host socket)
                 (fun e => maybeDisplaySocketError e)) ;;
            clients_splice i))
      {| clients := cs; calls := tr |}
    = (Normal tt, {| clients := []; calls := tr ++ evs |})
    /\ sends evs = rev (map (fun c => (socket c, reload_frame target)) cs)
    /\ closes evs = [].
Proof.
  induction cs as [|c cs IH] using rev_ind; intros tr.
  - exists []. cbn. now rewrite app_nil_r.
  - rewrite length_app, Nat.add_comm. cbn [List.length plus].
    rewrite for_down_succ.
    destruct (reload_turn target cs c tr) as (evs & -> & Hs & Hc).
    destruct (IH (tr ++ evs)) as (evs' & -> & Hs' & Hc').
    exists (evs ++ evs'). rewrite app_assoc, sends_app, closes_app.
    rewrite Hs, Hs', Hc, Hc', map_app, rev_app_distr. auto.
Qed.

(** What a call of [reloadClients] does. *)
Lemma reloadClients_run (target : option JS.str) (s : Server) :
  exists evs,
    reloadClients host target s
    = (Normal tt, {| clients := []; calls := calls s ++ evs |})
    /\ sends evs = rev (map (fun c => (socket c, reload_frame target)) (clients s))
    /\ closes evs = [].
Proof.
  destruct s as [cs tr].
  destruct (reload_loop target cs tr) as (evs & E & H).
  exists evs. split; [|exact H].
  unfold reloadClients, bind, clients_length. cbn [clients calls].
  destruct target; exact E.
Qed.

(** One turn of the loop of the log handler: the socket at the index is
    sent the frame, and whether the send throws or not the turn completes
    with the registry as it was. *)
Lemma log_turn (frame : JS.str) (cs : list Client) (i : nat) (c : Client)
    (tr : list Event) :
  nth_error cs i = Some c ->
  (socket <- clients_socket i ;;
   try_catch (socket_send host socket frame) (fun _e => ret tt))
    {| clients := cs; calls := tr |}
  = (Normal tt, {| clients := cs; calls := tr ++ [Send (socket c) frame] |}).
Proof.
  intros Hnth.
  unfold bind, clients_socket, try_catch, socket_send, ret.
  cbn [clients calls]. rewrite Hnth. cbn [clients calls].
  now destruct (send_outcome host tr (socket c) frame).
Qed.

(** The loop of the log handler: the registry stays as it is, and the
    entries below the start index are sent the frame from the last one
    down. *)
Lemma log_loop (frame : JS.str) (cs : list Client) :
  forall n tr, n <= List.length cs ->
    exists evs,
      for_down n
        (fun i =>
           socket <- clients_socket i ;;
           try_catch (socket_send host socket frame) (fun _e => ret tt))
        {| clients := cs; calls := tr |}
      = (Normal tt, {| clients := cs; calls := tr ++ evs |})
      /\ sends evs = rev (map (fun c => (socket c, frame)) (firstn n cs))
      /\ closes evs = [].
Proof.
  induction n as [|n IH]; intros tr Hn.
  - exists []. cbn. now rewrite app_nil_r.
  - destruct (nth_error cs n) as [c|] eqn:Hnth;
      [|apply nth_error_None in Hnth; lia].
    rewrite for_down_succ, (log_turn frame _ _ tr Hnth).
    destruct (IH (tr ++ [Send (socket c) frame])) as (evs & -> & Hs & Hc);
      [lia|].
    exists (Send (socket c) frame :: evs).
    rewrite (@firstn_succ _ _ _ _ Hnth), map_app, rev_app_distr.
    cbn [map rev app sends closes]. rewrite Hs, Hc, <- app_assoc. auto.
Qed.

(** What a call of the log handler does. *)
Lemma onLog_run (logRecord : LogRecord) (msg : JS.str) (s : Server) :
  exists evs,
    onLog host stringify_log logRecord msg s
    = (Normal tt, {| clients := clients s; calls := calls s ++ evs |})
    /\ sends evs =
       rev (map (fun c => (socket c, log_frame stringify_log logRecord msg))
              (clients s))
    /\ closes evs = [].
Proof.
  destruct s as [cs tr].
  destruct (log_loop (log_frame stringify_log logRecord msg) cs tr (le_n _))
    as (evs & E & Hs & Hc).
  exists evs. rewrite firstn_all in Hs. repeat split; auto.
Qed.

End Broadcasts.

(** ** The broadcasts follow the traversal *)

Lemma filter_none {A} (l : list A) : filter (fun _ => negb true) l = [].
Proof. induction l as [|a l IH]; [reflexivity|exact IH]. Qed.

Lemma filter_all {A} (l : list A) : filter (fun _ => negb false) l = l.
Proof.
  induction l as [|a l IH]; [reflexivity|].
  change (a :: filter (fun _ => negb false) l = a :: l). now rewrite IH.
Qed.

(** A reload broadcast is the walk that splices out every index: it calls
    [send] on the socket of each visit, in the order of the visits, and it
    leaves the registry the walk leaves. *)
Lemma reloadClients_follows_traversal (host : Host) (target : option JS.str)
    (s : Server) :
  exists visited,
    reverse_traversal (fun _ => true) (clients s)
    = Some (visited, clients (snd (reloadClients host target s)))
    /\ map fst (sends (calls (snd (reloadClients host target s))))
       = map fst (sends (calls s)) ++ map (fun v => socket (snd v)) visited.
Proof.
  destruct (reloadClients_run host target s) as (evs & -> & Hs & _).
  exists (rev (indexed (clients s))). cbn [snd clients calls]. split.
  - unfold reverse_traversal.
    pose proof (traverse_down_prefix (fun _ => true) (clients s) [] []) as H.
    now rewrite !app_nil_r, filter_none in H.
  - rewrite sends_app, map_app, Hs.
    rewrite <- (map_map snd socket), !map_rev, indexed_snd, map_map.
    reflexivity.
Qed.

(** A log broadcast is the walk that splices out nothing. *)
Lemma onLog_follows_traversal (host : Host)
    (stringify_log : LogRecord -> JS.str -> JS.str) (logRecord : LogRecord)
    (msg : JS.str) (s : Server) :
  exists visited,
    reverse_traversal (fun _ => false) (clients s)
    = Some (visited,
            clients (snd (onLog host stringify_log logRecord msg s)))
    /\ map fst (sends (calls (snd (onLog host stringify_log logRecord msg s))))
       = map fst (sends (calls s)) ++ map (fun v => socket (snd v)) visited.
Proof.
  destruct (onLog_run host stringify_log logRecord msg s)
    as (evs & -> & Hs & _).
  exists (rev (indexed (clients s))). cbn [snd clients calls]. split.
  - unfold reverse_traversal.
    pose proof (traverse_down_prefix (fun _ => false) (clients s) [] []) as H.
    now rewrite !app_nil_r, filter_all, indexed_snd in H.
  - rewrite sends_app, map_app, Hs.
    rewrite <- (map_map snd socket), !map_rev, indexed_snd, map_map.
    reflexivity.
Qed.

(** ** The loop of the broadcasts, for any set of indices to splice out *)

Lemma for_down_ext (f g : nat -> M unit) :
  (forall i s, f i s = g i s) ->
  forall n s, for_down n f s = for_down n g s.
Proof.
  intros H. induction n as [|n IH]; intros s; [reflexivity|].
  rewrite !for_down_succ, H.
  destruct (g n s) as [[[]|e] s']; [apply IH|reflexivity].
Qed.

(** One turn of [broadcast_walk] at the last of the entries [below]: the
    socket of that entry is sent the frame, the turn completes whether the
    send throws or not, and the entry is gone when its index is to be spliced
    out; the entries [above] are not looked at. *)
Lemma walk_turn (host : Host) (frame : JS.str) (report : bool)
    (remove : nat -> bool) (below above : list Client) (c : Client)
    (tr : list Event) :
  exists evs,
    (socket <- clients_socket (List.length below) ;;
     try_finally
       (try_catch (socket_send host socket frame) (failure_handler report))
       (when (remove (List.length below))
          (clients_splice (List.length below))))
      {| clients := (below ++ [c]) ++ above; calls := tr |}
    = (Normal tt,
       {| clients :=
            (if remove (List.length below) then below else below ++ [c])
              ++ above;
          calls := tr ++ evs |})
    /\ sends evs = [(socket c, frame)].
Proof.
  pose proof (nth_error_last below c above) as Hnth.
  pose proof (splice1_last below c above) as Hsplice.
  unfold bind, clients_socket, try_finally, try_catch, socket_send, when,
    clients_splice, failure_handler, maybeDisplaySocketError, record, ret.
  cbn [clients calls]. rewrite Hnth. cbn [clients calls].
  destruct (send_outcome host tr (socket c) frame) as [e|], report,
    (remove (List.length below));
    cbn [clients calls]; rewrite ?Hsplice;
    first [ exists [Send (socket c) frame; Diagnostic e];
            rewrite <- ?app_assoc; split; reflexivity
          | exists [Send (socket c) frame]; split; reflexivity ].
Qed.

(** The loop of [broadcast_walk] over the entries [below]: each of them is
    sent the frame, from the last to the first, and those whose index is not
    spliced out stay, in their order. *)
Lemma walk_loop (host : Host) (frame : JS.str) (report : bool)
    (remove : nat -> bool) (below : list Client) :
  forall (above : list Client) (tr : list Event),
    exists evs,
      for_down (List.length below)
        (fun i =>
           socket <- clients_socket i ;;
           try_finally
             (try_catch (socket_send host socket frame) (failure_handler report))
             (when (remove i) (clients_splice i)))
        {| clients := below ++ above; calls := tr |}
      = (Normal tt,
         {| clients :=
              map snd (filter (fun p => negb (remove (fst p))) (indexed below))
                ++ above;
            calls := tr ++ evs |})
      /\ sends evs = rev (map (fun c => (socket c, frame)) below).
Proof.
  induction below as [|c below IH] using rev_ind; intros above tr.
  - exists []. cbn. now rewrite app_nil_r.
  - rewrite length_app, Nat.add_comm. cbn [List.length plus].
    rewrite for_down_succ.
    destruct (walk_turn host frame report remove below above c tr)
      as (evs & -> & Hs).
    rewrite indexed_snoc, filter_app, map_app. cbn [filter fst].
    destruct (remove (List.length below)); cbn [negb map snd].
    + destruct (IH above (tr ++ evs)) as (evs' & -> & Hs').
      exists (evs ++ evs').
      rewrite app_nil_r, app_assoc, sends_app, Hs, Hs', map_app, rev_app_distr.
      auto.
    + rewrite <- (app_assoc below [c] above).
      destruct (IH ([c] ++ above) (tr ++ evs)) as (evs' & -> & Hs').
      exists (evs ++ evs').
      rewrite <- !app_assoc, sends_app, Hs, Hs', map_app, rev_app_distr.
      auto.
Qed.

(** [reloadClients] is the loop that reports failures and splices out every
    index: the guarded [close] of its [finally] block is never reached. *)
Lemma reloadClients_is_a_walk (host : Host) (target : option JS.str)
    (s : Server) :
  reloadClients host target s
  = broadcast_walk host (reload_frame target) (failure_handler true)
      (fun _ => true) s.
Proof.
  unfold reloadClients, broadcast_walk, bind at 1 3, clients_length.
  apply for_down_ext. clear s. intros i s.
  unfold bind, clients_socket, try_finally, try_catch, socket_send, when,
    clients_splice, failure_handler, maybeDisplaySocketError, record, ret,
    reload_frame.
  destruct (nth_error (clients s) i) as [c|]; [|reflexivity].
  cbn [andb JS.not_number CLOSED Z.eqb].
  destruct target;
    (destruct (send_outcome host (calls s) (socket c) _); reflexivity).
Qed.

(** The log handler is the loop that drops failures and splices out
    nothing. *)
Lemma onLog_is_a_walk (host : Host)
    (stringify_log : LogRecord -> JS.str -> JS.str) (logRecord : LogRecord)
    (msg : JS.str) (s : Server) :
  onLog host stringify_log logRecord msg s
  = broadcast_walk host (log_frame stringify_log logRecord msg)
      (failure_handler false) (fun _ => false) s.
Proof.
  unfold onLog, broadcast_walk, bind at 1 3, clients_length.
  apply for_down_ext. clear s. intros i s.
  unfold bind, clients_socket, try_finally, try_catch, socket_send, when,
    failure_handler, ret.
  destruct (nth_error (clients s) i) as [c|]; [|reflexivity].
  destruct s as [cs tr]. cbn [clients calls].
  destruct (send_outcome host tr (socket c) _); reflexivity.
Qed.

(** C5. The loop of the broadcasts, run with either failure handler and
    with an arbitrary set of indices whose entries it splices out as it goes,
    completes without an exception and visits every client of the registry it
    started from exactly once: it calls [send] as many times as there were
    clients, on their sockets from the last client to the first, so the
    client that was at index [i] is the one visited at step
    [length - 1 - i]; no client is skipped and none is visited twice,
    whatever sends throw. The registry is left with the clients whose index
    was not spliced out, in their order. [reloadClients] is this loop with
    every index spliced out, and the log handler is this loop with none. *)
Theorem broadcast_walk_visits_each_client_once :
  forall (host : Host) (stringify_log : LogRecord -> JS.str -> JS.str)
         (frame : JS.str) (report : bool) (remove : nat -> bool)
         (target : option JS.str) (logRecord : LogRecord) (msg : JS.str)
         (s : Server),
    (exists evs,
        broadcast_walk host frame (failure_handler report) remove s
        = (Normal tt,
           {| clients :=
                map snd (filter (fun p => negb (remove (fst p)))
                           (indexed (clients s)));
              calls := calls s ++ evs |})
        /\ sends evs = rev (map (fun c => (socket c, frame)) (clients s))
        /\ List.length (sends evs) = List.length (clients s)
        /\ (forall i c,
               nth_error (clients s) i = Some c ->
               nth_error (sends evs) (List.length (clients s) - 1 - i)
               = Some (socket c, frame)))
    /\ reloadClients host target s
       = broadcast_walk host (reload_frame target) (failure_handler true)
           (fun _ => true) s
    /\ onLog host stringify_log logRecord msg s
       = broadcast_walk host (log_frame stringify_log logRecord msg)
           (failure_handler false) (fun _ => false) s.
Proof.
  intros host stringify_log frame report remove target logRecord msg s.
  split; [|split; [apply reloadClients_is_a_walk | apply onLog_is_a_walk]].
  destruct s as [cs tr].
  destruct (walk_loop host frame report remove cs [] tr) as (evs & E & Hs).
  rewrite !app_nil_r in E.
  exists evs. cbn [clients calls]. repeat split.
  - exact E.
  - exact Hs.
  - now rewrite Hs, length_rev, length_map.
  - intros i c Hnth.
    pose proof (nth_error_in_range _ _ Hnth) as Hlt.
    rewrite Hs, nth_error_rev, length_map.
    destruct (Nat.ltb_spec (List.length cs - 1 - i) (List.length cs)); [|lia].
    replace (List.length cs - S (List.length cs - 1 - i)) with i by lia.
    now rewrite nth_error_map, Hnth.
Qed.

Example broadcast_walk_scenario :
  broadcast_walk Scenario.host (JS.lit "ping") (failure_handler true)
    (fun i => Nat.eqb i 1) Scenario.registry
  = (Normal tt,
     {| clients := [Scenario.clientA; Scenario.clientC];
        calls := [Send Scenario.socketC (JS.lit "ping");
                  Send Scenario.socketB (JS.lit "ping");
                  Diagnostic (TransportError 32);
                  Send Scenario.socketA (JS.lit "ping")] |}).
Proof. reflexivity. Qed.

(** ** Reload broadcasts *)

(** Whatever the host answers, a call of [reloadClients] makes no [close]
    call: the guard [!socket.CLOSED && !socket.CLOSING] reads the two
    interface constants, which are not zero. *)
Lemma reloadClients_makes_no_close_call (host : Host)
    (target : option JS.str) (s : Server) :
  closes (calls (snd (reloadClients host target s))) = closes (calls s).
Proof.
  destruct (reloadClients_run host target s) as (evs & -> & _ & Hc).
  cbn [snd calls]. now rewrite closes_app, Hc, app_nil_r.
Qed.

(** C1. The registry holds one client whose socket is open
    ([readyState] is [OPEN]) and whose send succeeds. [reloadClients()]
    sends it ["reload"], removes it, and makes no [close] call: zero close
    attempts for one registered client. *)
Theorem reloadClients_open_client_not_closed :
  List.length (clients Scenario.one_open_client) = 1
  /\ readyState Scenario.socketA = OPEN Scenario.socketA
  /\ reloadClients Scenario.host None Scenario.one_open_client
     = (Normal tt,
        {| clients := [];
           calls := [Send Scenario.socketA (JS.lit "reload")] |})
  /\ List.length
       (closes (calls (snd (reloadClients Scenario.host None
                              Scenario.one_open_client)))) = 0.
Proof. repeat split. Qed.

(** C2. For every registry, every argument and every host (so every
    combination of failing calls), [reloadClients] completes without an
    exception and leaves the registry empty. *)
Theorem reloadClients_empties_registry :
  forall (host : Host) (target : option JS.str) (s : Server),
    fst (reloadClients host target s) = Normal tt
    /\ clients (snd (reloadClients host target s)) = []
    /\ List.length (clients (snd (reloadClients host target s))) = 0.
Proof.
  intros host target s.
  destruct (reloadClients_run host target s) as (evs & -> & _).
  repeat split.
Qed.

(** C8. [reloadClients(target)] sends every client the code units of
    ["reload"] followed at once by those of [target]; without an argument
    the frame is ["reload"]; and [reloadClients("/x")] on the registry A, B, C
    sends ["reload/x"] to C, B and A. *)
Theorem reloadClients_frame :
  forall (host : Host) (s : Server),
    (forall target : JS.str,
        sends (calls (snd (reloadClients host (Some target) s)))
        = sends (calls s)
            ++ rev (map (fun c => (socket c, JS.lit "reload" ++ target))
                      (clients s)))
    /\ sends (calls (snd (reloadClients host None s)))
       = sends (calls s)
           ++ rev (map (fun c => (socket c, JS.lit "reload")) (clients s))
    /\ sends (calls (snd (reloadClients Scenario.host (Some (JS.lit "/x"))
                            Scenario.registry)))
       = [(Scenario.socketC, JS.lit "reload/x");
          (Scenario.socketB, JS.lit "reload/x");
          (Scenario.socketA, JS.lit "reload/x")].
Proof.
  intros host s. split; [|split].
  - intros target.
    destruct (reloadClients_run host (Some target) s) as (evs & -> & Hs & _).
    cbn [snd calls]. now rewrite sends_app, Hs.
  - destruct (reloadClients_run host None s) as (evs & -> & Hs & _).
    cbn [snd calls]. rewrite sends_app, Hs. unfold reload_frame.
    now rewrite app_nil_r.
  - reflexivity.
Qed.

(** ** Failure isolation *)

(** C3. In a reload broadcast and in a log broadcast alike, whatever sends
    throw, the handler completes without an exception and the sockets that
    [send] was called on are the sockets of the registry the pass started
    from, each once, from the last registered to the first. *)
Theorem broadcast_sends_to_every_client :
  forall (host : Host) (stringify_log : LogRecord -> JS.str -> JS.str)
         (target : option JS.str) (logRecord : LogRecord) (msg : JS.str)
         (s : Server),
    (exists evs,
        calls (snd (reloadClients host target s)) = calls s ++ evs
        /\ fst (reloadClients host target s) = Normal tt
        /\ map fst (sends evs) = rev (map socket (clients s)))
    /\ (exists evs,
           calls (snd (onLog host stringify_log logRecord msg s)) = calls s ++ evs
           /\ fst (onLog host stringify_log logRecord msg s) = Normal tt
           /\ map fst (sends evs) = rev (map socket (clients s))).
Proof.
  intros host stringify_log target logRecord msg s. split.
  - destruct (reloadClients_run host target s) as (evs & -> & Hs & _).
    exists evs. repeat split.
    now rewrite Hs, <- map_rev, map_map, map_rev.
  - destruct (onLog_run host stringify_log logRecord msg s)
      as (evs & -> & Hs & _).
    exists evs. repeat split.
    now rewrite Hs, <- map_rev, map_map, map_rev.
Qed.

(** C4. A log broadcast leaves the registry as it found it, whatever
    sends throw: the same clients, so the same number of them, and no
    [close] call is made. *)
Theorem onLog_keeps_every_client :
  forall (host : Host) (stringify_log : LogRecord -> JS.str -> JS.str)
         (logRecord : LogRecord) (msg : JS.str) (s : Server),
    fst (onLog host stringify_log logRecord msg s) = Normal tt
    /\ clients (snd (onLog host stringify_log logRecord msg s)) = clients s
    /\ List.length (clients (snd (onLog host stringify_log logRecord msg s)))
       = List.length (clients s)
    /\ closes (calls (snd (onLog host stringify_log logRecord msg s)))
       = closes (calls s).
Proof.
  intros host stringify_log logRecord msg s.
  destruct (onLog_run host stringify_log logRecord msg s)
    as (evs & -> & _ & Hc).
  cbn [fst snd clients calls]. rewrite closes_app, Hc, app_nil_r.
  repeat split.
Qed.

(** ** The handshake *)

(** C9. When the upgrade throws, [connect] does not throw: the promise
    it returns resolves to [undefined], and the error went to the diagnostic
    channel and nowhere else. *)
Theorem connect_upgrade_failure :
  forall (host : Host) (req : Request) (s : Server) (e : Error),
    upgrade_outcome host (calls s) req = inl e ->
    connect host req s
    = (Normal None,
       {| clients := clients s;
          calls := calls s ++ [Upgrade req; Diagnostic e] |}).
Proof.
  intros host req s e H.
  unfold connect, try_catch, bind, upgradeWebSocket, maybeDisplaySocketError,
    record, ret.
  rewrite H. cbn [clients calls]. now rewrite <- app_assoc.
Qed.

Lemma connect_upgrade_failure_witness :
  upgrade_outcome Scenario.host (calls Scenario.registry) Scenario.refused
  = inl TypeError
  /\ connect Scenario.host Scenario.refused Scenario.registry
     = (Normal None,
        {| clients := clients Scenario.registry;
           calls := calls Scenario.registry
                      ++ [Upgrade Scenario.refused; Diagnostic TypeError] |}).
Proof.
  split; [reflexivity|].
  apply (@connect_upgrade_failure Scenario.host Scenario.refused
           Scenario.registry TypeError).
  reflexivity.
Defined.

(** What [connect] does on either answer of the host. *)
Lemma connect_run (host : Host) (req : Request) (s : Server) :
  connect host req s =
  match upgrade_outcome host (calls s) req with
  | inl e =>
      (Normal None,
       {| clients := clients s;
          calls := calls s ++ [Upgrade req; Diagnostic e] |})
  | inr (sock, response) =>
      (Normal (Some response),
       {| clients := clients s ++ [{| path := url req; socket := sock |}];
          calls := calls s ++ [Upgrade req] |})
  end.
Proof.
  unfold connect, try_catch, bind, upgradeWebSocket, maybeDisplaySocketError,
    record, clients_push, ret.
  destruct (upgrade_outcome host (calls s) req) as [e|[sock response]];
    cbn [clients calls]; now rewrite <- ?app_assoc.
Qed.

(** C10. [connect] leaves the registry as it was when the upgrade
    throws, and it appends a client, the one made of the request's address
    and the new socket, exactly when it resolves to a response. *)
Theorem connect_registers_iff_response :
  forall (host : Host) (req : Request) (s : Server),
    ((exists e, upgrade_outcome host (calls s) req = inl e) <->
     clients (snd (connect host req s)) = clients s)
    /\ ((exists response, fst (connect host req s) = Normal (Some response)) <->
        (exists sock,
            clients (snd (connect host req s))
            = clients s ++ [{| path := url req; socket := sock |}]))
    /\ ((exists response, fst (connect host req s) = Normal (Some response)) <->
        clients (snd (connect host req s)) <> clients s).
Proof.
  intros host req s. rewrite connect_run.
  assert (Hne : forall c, clients s ++ [c] <> clients s).
  { intros c H. apply (f_equal (@List.length Client)) in H.
    rewrite length_app in H. cbn in H. lia. }
  destruct (upgrade_outcome host (calls s) req) as [e|[sock response]];
    cbn [fst snd clients]; repeat split; intros H;
    solve [ eauto
          | destruct H; discriminate
          | exfalso; congruence
          | destruct H as [x H]; symmetry in H; exfalso; eapply Hne; eassumption
          | exfalso; eapply Hne; eassumption
          | apply Hne ].
Qed.

(** ** The script injector *)

Lemma store_last (l : Uint8Array.Heap) (old v : list Z) :
  Uint8Array.store (List.length l) v (l ++ [old]) = l ++ [v].
Proof.
  induction l as [|a l IH]; cbn; [reflexivity|]. now rewrite IH.
Qed.

Lemma contents_old (h : Uint8Array.Heap) (added : list Z) (r : Uint8Array.ref) :
  r < List.length h ->
  Uint8Array.contents (h ++ [added]) r = Uint8Array.contents h r.
Proof.
  intros H. unfold Uint8Array.contents. now rewrite nth_error_app1.
Qed.

Lemma contents_new (h : Uint8Array.Heap) (added : list Z) :
  Uint8Array.contents (h ++ [added]) (List.length h) = Some added.
Proof.
  unfold Uint8Array.contents.
  now rewrite nth_error_app2, Nat.sub_diag by lia.
Qed.

(** The newline put before the script is one byte, and the bytes of the
    script follow it unchanged. *)
Lemma encode_newline (script : JS.str) :
  TextEncoder.encode (JS.newline ++ script) = 10%Z :: TextEncoder.encode script.
Proof. reflexivity. Qed.

Section Injector.

Variable FormatPandoc : Type.
Variable isRevealjsOutput : FormatPandoc -> bool.
Variable renderEjs : JS.str -> list (string * EjsValue) -> JS.str.
Variable resourcePath : JS.str -> JS.str.
Variable kLocalhost : JS.str.

Local Abbreviation script :=
  (devServerClientScript isRevealjsOutput renderEjs resourcePath kLocalhost).
Local Abbreviation fragments := (devserver_fragments isRevealjsOutput kLocalhost).
Local Abbreviation inject :=
  (injectClient isRevealjsOutput renderEjs resourcePath kLocalhost).

(** C6. For an input array that holds [bytes], [injectClient] returns
    an array that was not in the heap before; it holds [bytes], then the
    newline byte, then the UTF-8 bytes of the script, so its length is that
    of the input plus that of the encoded script plus one and the input is
    its prefix; and every array that was in the heap, the input among them,
    holds what it held. *)
Theorem injectClient_appends_to_a_new_buffer :
  forall (port : Z) (isPresentation : option bool) (file : Uint8Array.ref)
         (inputFile : option JS.str) (format : option (Format FormatPandoc))
         (h : Uint8Array.Heap) (bytes : list Z),
    Uint8Array.contents h file = Some bytes ->
    exists out h' result,
      inject port isPresentation file inputFile format h = Some (out, h')
      /\ Uint8Array.contents h out = None
      /\ out <> file
      /\ Uint8Array.contents h' out = Some result
      /\ List.length result
         = List.length bytes
           + List.length
               (TextEncoder.encode (script port inputFile format isPresentation))
           + 1
      /\ firstn (List.length bytes) result = bytes
      /\ result
         = bytes ++ 10%Z
             :: TextEncoder.encode (script port inputFile format isPresentation)
      /\ Uint8Array.contents h' file = Some bytes
      /\ (forall r, r < List.length h ->
                    Uint8Array.contents h' r = Uint8Array.contents h r).
Proof.
  intros port isPresentation file inputFile format h bytes Hfile.
  pose proof (nth_error_in_range _ _ Hfile) as Hlt.
  set (enc := TextEncoder.encode (script port inputFile format isPresentation)).
  set (h1 := h ++ [10%Z :: enc]).
  set (zeros := repeat 0%Z (List.length bytes + S (List.length enc))).
  assert (Hlen1 : List.length h1 = S (List.length h))
    by (unfold h1; rewrite length_app; cbn; lia).
  assert (Hfile1 : Uint8Array.contents h1 file = Some bytes)
    by (unfold h1; now rewrite contents_old).
  assert (Hsc1 : Uint8Array.contents h1 (List.length h) = Some (10%Z :: enc))
    by apply contents_new.
  exists (S (List.length h)), (h1 ++ [bytes ++ 10%Z :: enc]),
    (bytes ++ 10%Z :: enc).
  split; [|repeat split].
  - unfold injectClient, Uint8Array.encode, Uint8Array.length, Uint8Array.new.
    rewrite encode_newline. fold enc. fold h1.
    rewrite Hfile1, Hsc1. cbn [option_map List.length]. fold zeros.
    rewrite Hlen1.
    unfold Uint8Array.set.
    rewrite <- Hlen1 at 1 2. rewrite contents_new.
    rewrite (contents_old h1 zeros) by lia. rewrite Hfile1.
    assert (Hz : List.length zeros
                 = List.length bytes + S (List.length enc))
      by apply repeat_length.
    rewrite Hz.
    destruct (Nat.leb_spec (0 + List.length bytes)
                (List.length bytes + S (List.length enc))); [|lia].
    rewrite <- Hlen1, store_last. rewrite contents_new.
    rewrite (contents_old h1) by lia. rewrite Hsc1.
    cbn [firstn app plus List.length].
    rewrite length_app, length_skipn, Hz.
    replace (List.length bytes + S (List.length enc) - List.length bytes)
      with (S (List.length enc)) by lia.
    rewrite Nat.leb_refl, store_last.
    rewrite firstn_app, firstn_all, Nat.sub_diag, firstn_O, app_nil_r.
    rewrite skipn_all2
      by (rewrite length_app, length_skipn, Hz; lia).
    rewrite app_nil_r, Hlen1. reflexivity.
  - unfold Uint8Array.contents. apply nth_error_None. lia.
  - lia.
  - rewrite <- Hlen1. apply contents_new.
  - rewrite length_app. cbn [List.length]. fold enc. lia.
  - now rewrite firstn_app, firstn_all, Nat.sub_diag, firstn_O, app_nil_r.
  - rewrite contents_old by lia. exact Hfile1.
  - intros r Hr. rewrite contents_old by lia. unfold h1.
    now rewrite contents_old.
Qed.




End Injector.

Lemma injectClient_appends_to_a_new_buffer_witness :
  Uint8Array.contents Scenario.heap 0 = Some [60; 112; 62]%Z
  /\ exists out h' result,
       injectClient (fun _ : unit => true) Scenario.renderEjs
         Scenario.resourcePath Scenario.kLocalhost 4200 (Some false) 0
         (Some (JS.lit "input.qmd")) None Scenario.heap = Some (out, h')
       /\ Uint8Array.contents h' out = Some result
       /\ firstn 3 result = [60; 112; 62]%Z
       /\ Uint8Array.contents h' 0 = Some [60; 112; 62]%Z.
Proof.
  split; [reflexivity|].
  destruct (@injectClient_appends_to_a_new_buffer unit (fun _ => true)
              Scenario.renderEjs Scenario.resourcePath Scenario.kLocalhost
              4200%Z (Some false) 0 (Some (JS.lit "input.qmd")) None
              Scenario.heap [60; 112; 62]%Z eq_refl)
    as (out & h' & result & H1 & _ & _ & H2 & _ & H3 & _ & H4 & _).
  exists out, h', result. repeat split; assumption.
Defined.

(** * Further properties *)

(** ** [handle] *)

Example handle_samples :
  handle Samples.browser_headers = true
  /\ handle Samples.page_headers = false
  /\ handle [(JS.lit "UPGRADE", JS.lit "websocket")] = true
  /\ handle [(JS.lit "upgrade", JS.lit "WebSocket")] = false
  /\ handle [(JS.lit "upgrade", JS.lit "websocket");
             (JS.lit "Upgrade", JS.lit "websocket")] = false.
Proof. repeat split. Qed.

Lemma str_eqb_eq (a b : JS.str) : Headers.str_eqb a b = true <-> a = b.
Proof.
  unfold Headers.str_eqb. destruct (list_eq_dec Z.eq_dec a b); split;
    auto; discriminate.
Qed.

(** The joined values of two headers or more hold a comma, which
    ["websocket"] does not. *)
Lemma joined_values_differ (v w : JS.str) (more : list JS.str) :
  JS.join (JS.lit ", ") (v :: w :: more) <> JS.lit "websocket".
Proof.
  intros H.
  assert (Hin : In 44%Z (JS.lit "websocket")).
  { rewrite <- H. cbn [JS.join]. apply in_or_app. right. left. reflexivity. }
  vm_compute in Hin. intuition discriminate.
Qed.

(** X1. [handle] accepts a request exactly when one header and no more
    goes by the name [upgrade], in whatever letter case the name is written,
    and the value of that header is ["websocket"] to the letter: a request
    without such a header, with another value or with the header twice is
    refused, and the other headers play no part. *)
Theorem handle_accepts :
  forall headers : list (JS.str * JS.str),
    handle headers = true <->
    exists name,
      Headers.lowercase name = JS.lit "upgrade"
      /\ filter (Headers.named (JS.lit "upgrade")) headers
         = [(name, JS.lit "websocket")].
Proof.
  intros headers. unfold handle, Headers.get.
  destruct (filter (Headers.named (JS.lit "upgrade")) headers)
    as [|[n v] [|[n' w] more]] eqn:E.
  - split; [discriminate|]. intros (name & _ & H). discriminate.
  - cbn [map snd JS.join]. rewrite str_eqb_eq. split.
    + intros ->. exists n. split; [|reflexivity].
      assert (Hin : In (n, JS.lit "websocket")
                      (filter (Headers.named (JS.lit "upgrade")) headers))
        by (rewrite E; now left).
      apply filter_In in Hin. destruct Hin as [_ Hn].
      unfold Headers.named in Hn. now apply str_eqb_eq in Hn.
    + intros (name & _ & H). congruence.
  - cbn [map snd]. split.
    + intros H. apply str_eqb_eq in H. now apply joined_values_differ in H.
    + intros (name & _ & H). discriminate.
Qed.

(** ** The calls of a broadcast, one by one *)

Lemma diagnostics_app (a b : list Event) :
  diagnostics (a ++ b) = diagnostics a ++ diagnostics b.
Proof.
  induction a as [|[] a IH]; cbn; now rewrite ?IH.
Qed.

(** The calls of one turn of the loop of [reloadClients]. *)
Lemma reload_turn_calls (host : Host) (target : option JS.str)
    (cs : list Client) (c : Client) (tr : list Event) :
  (socket <- clients_socket (List.length cs) ;;
   try_finally
     (try_catch
        (socket_send host socket (reload_frame target))
        (fun e => maybeDisplaySocketError e))
     (when (JS.not_number (CLOSED socket) && JS.not_number (CLOSING socket))
        (try_catch (socket_close host socket)
           (fun e => maybeDisplaySocketError e)) ;;
      clients_splice (List.length cs)))
    {| clients := cs ++ [c]; calls := tr |}
  = (Normal tt,
     {| clients := cs;
        calls := tr ++ reload_calls host (reload_frame target) tr [c] |}).
Proof.
  pose proof (nth_error_last cs c []) as Hnth.
  pose proof (splice1_last cs c []) as Hsplice.
  rewrite app_nil_r in Hnth. rewrite !app_nil_r in Hsplice.
  unfold bind, clients_socket, try_finally, try_catch, socket_send, when,
    clients_splice, maybeDisplaySocketError, record, ret.
  cbn [clients calls]. rewrite Hnth.
  cbn [clients calls andb JS.not_number CLOSED Z.eqb reload_calls].
  destruct (send_outcome host tr (socket c) (reload_frame target)) as [e|];
    cbn [clients calls]; rewrite Hsplice, app_nil_r;
    now rewrite <- ?app_assoc.
Qed.

Lemma reload_calls_app (host : Host) (frame : JS.str) (a b : list Client) :
  forall tr,
    reload_calls host frame tr (a ++ b)
    = reload_calls host frame tr a
        ++ reload_calls host frame (tr ++ reload_calls host frame tr a) b.
Proof.
  induction a as [|c a IH]; intros tr.
  - cbn. now rewrite app_nil_r.
  - cbn [app reload_calls]. rewrite IH, <- !app_assoc. reflexivity.
Qed.

Lemma reload_loop_calls (host : Host) (target : option JS.str)
    (cs : list Client) :
  forall tr,
    for_down (List.length cs)
      (fun i =>
         socket <- clients_socket i ;;
         try_finally
           (try_catch
              (socket_send host socket (reload_frame target))
              (fun e => maybeDisplaySocketError e))
           (when (JS.not_number (CLOSED socket) && JS.not_number (CLOSING socket))
              (try_catch (socket_close host socket)
                 (fun e => maybeDisplaySocketError e)) ;;
            clients_splice i))
      {| clients := cs; calls := tr |}
    = (Normal tt,
       {| clients := [];
          calls := tr ++ reload_calls host (reload_frame target) tr (rev cs) |}).
Proof.
  induction cs as [|c cs IH] using rev_ind; intros tr.
  - cbn. now rewrite app_nil_r.
  - rewrite length_app, Nat.add_comm. cbn [List.length plus].
    rewrite for_down_succ, reload_turn_calls, IH.
    rewrite rev_app_distr. cbn [rev app].
    rewrite (reload_calls_app host (reload_frame target) [c] (rev cs)).
    now rewrite app_assoc.
Qed.

(** What a call of [reloadClients] returns and leaves behind. *)
Lemma reloadClients_exact (host : Host) (target : option JS.str) (s : Server) :
  reloadClients host target s
  = (Normal tt,
     {| clients := [];
        calls := calls s
                   ++ reload_calls host (reload_frame target) (calls s)
                        (rev (clients s)) |}).
Proof.
  destruct s as [cs tr].
  unfold reloadClients, bind, clients_length. cbn [clients calls].
  pose proof (reload_loop_calls host target cs tr) as H.
  destruct target; exact H.
Qed.

(** X2. The calls [reloadClients] makes, one by one: it goes through the
    clients from the last registered to the first, sends each one the frame,
    reports the error of a send that throws before it goes on to the next
    client, and makes no other call. It then returns with an empty
    registry. *)
Theorem reloadClients_calls :
  forall (host : Host) (target : option JS.str) (s : Server),
    reloadClients host target s
    = (Normal tt,
       {| clients := [];
          calls := calls s
                     ++ reload_calls host (reload_frame target) (calls s)
                          (rev (clients s)) |}).
Proof. intros host target s. apply reloadClients_exact. Qed.

Lemma reload_calls_diagnostics (host : Host) (frame : JS.str)
    (cs : list Client) :
  forall tr,
    diagnostics (reload_calls host frame tr cs)
    = send_failures host frame tr cs
    /\ List.length (send_failures host frame tr cs) <= List.length cs.
Proof.
  induction cs as [|c cs IH]; intros tr; [split; auto|].
  cbn [reload_calls send_failures].
  destruct (send_outcome host tr (socket c) frame) as [e|];
    cbn [app diagnostics List.length];
    destruct (IH (tr ++ [Send (socket c) frame; Diagnostic e])) as [H1 H2]
    || destruct (IH (tr ++ [Send (socket c) frame])) as [H1 H2];
    rewrite H1; split; auto; lia.
Qed.

(** X3. The errors that a reload broadcast reports on the diagnostic
    channel are the errors its sends throw, in the order of the sends: every
    failure is reported once, a send that returns is not reported, and there
    are no more reports than clients. *)
Theorem reloadClients_reports_send_failures :
  forall (host : Host) (target : option JS.str) (s : Server),
    diagnostics (calls (snd (reloadClients host target s)))
    = diagnostics (calls s)
        ++ send_failures host (reload_frame target) (calls s) (rev (clients s))
    /\ List.length
         (send_failures host (reload_frame target) (calls s) (rev (clients s)))
       <= List.length (clients s).
Proof.
  intros host target s. rewrite reloadClients_exact. cbn [snd calls].
  destruct (reload_calls_diagnostics host (reload_frame target)
              (rev (clients s)) (calls s)) as [H1 H2].
  rewrite diagnostics_app, H1, length_rev in *. auto.
Qed.

Lemma log_loop_calls (host : Host) (frame : JS.str) (cs : list Client) :
  forall n tr, n <= List.length cs ->
    for_down n
      (fun i =>
         socket <- clients_socket i ;;
         try_catch (socket_send host socket frame) (fun _e => ret tt))
      {| clients := cs; calls := tr |}
    = (Normal tt,
       {| clients := cs;
          calls := tr ++ map (fun c => Send (socket c) frame)
                           (rev (firstn n cs)) |}).
Proof.
  induction n as [|n IH]; intros tr Hn.
  - cbn. now rewrite app_nil_r.
  - destruct (nth_error cs n) as [c|] eqn:Hnth;
      [|apply nth_error_None in Hnth; lia].
    rewrite for_down_succ, (log_turn host frame _ _ tr Hnth), IH by lia.
    rewrite (@firstn_succ _ _ _ _ Hnth), rev_app_distr. cbn [rev app map].
    now rewrite <- app_assoc.
Qed.

Lemma diagnostics_of_sends (frame : JS.str) (cs : list Client) :
  diagnostics (map (fun c => Send (socket c) frame) cs) = [].
Proof. induction cs; cbn; auto. Qed.

(** What a call of the log handler returns and leaves behind. *)
Lemma onLog_exact (host : Host)
    (stringify_log : LogRecord -> JS.str -> JS.str) (logRecord : LogRecord)
    (msg : JS.str) (s : Server) :
  onLog host stringify_log logRecord msg s
  = (Normal tt,
     {| clients := clients s;
        calls := calls s
                   ++ map (fun c =>
                             Send (socket c)
                               (log_frame stringify_log logRecord msg))
                        (rev (clients s)) |}).
Proof.
  destruct s as [cs tr].
  pose proof (log_loop_calls host (log_frame stringify_log logRecord msg)
                cs tr (le_n _)) as H.
  now rewrite firstn_all in H.
Qed.

(** X4. The calls of the log handler, one by one: a send of the frame to
    each client, from the last registered to the first, and nothing else.
    The error of a send that throws goes nowhere: nothing is reported on the
    diagnostic channel, so a failing client cannot set off another log
    record. *)
Theorem onLog_calls :
  forall (host : Host) (stringify_log : LogRecord -> JS.str -> JS.str)
         (logRecord : LogRecord) (msg : JS.str) (s : Server),
    onLog host stringify_log logRecord msg s
    = (Normal tt,
       {| clients := clients s;
          calls := calls s
                     ++ map (fun c =>
                               Send (socket c)
                                 (log_frame stringify_log logRecord msg))
                          (rev (clients s)) |})
    /\ diagnostics (calls (snd (onLog host stringify_log logRecord msg s)))
       = diagnostics (calls s).
Proof.
  intros host stringify_log logRecord msg s.
  rewrite onLog_exact. split; [reflexivity|]. cbn [snd calls].
  now rewrite diagnostics_app, diagnostics_of_sends, app_nil_r.
Qed.

(** ** Calls one after the other *)

(** X5. Once [reloadClients] has returned, the server has no client
    left to talk to: a second [reloadClients] and a log record make no call
    at all and leave the state as it is, whatever the host and whatever the
    first broadcast ran into. *)
Theorem nothing_is_sent_after_a_reload :
  forall (host : Host) (stringify_log : LogRecord -> JS.str -> JS.str)
         (first second : option JS.str) (logRecord : LogRecord) (msg : JS.str)
         (s : Server),
    reloadClients host second (snd (reloadClients host first s))
    = (Normal tt, snd (reloadClients host first s))
    /\ onLog host stringify_log logRecord msg (snd (reloadClients host first s))
       = (Normal tt, snd (reloadClients host first s)).
Proof.
  intros host stringify_log first second logRecord msg s.
  rewrite (reloadClients_exact host first s). cbn [snd].
  rewrite reloadClients_exact, onLog_exact. cbn [clients calls rev map reload_calls].
  now rewrite app_nil_r.
Qed.

(** X6. The client of the latest handshake is served first: after a
    [connect] that the host accepts with the socket [sock], a reload
    broadcast sends to [sock], then to the clients that were registered
    before, from the last to the first. *)
Theorem reload_serves_the_newest_client_first :
  forall (host : Host) (req : Request) (target : option JS.str) (s : Server)
         (sock : WebSocket) (response : Response),
    upgrade_outcome host (calls s) req = inr (sock, response) ->
    sends (calls (snd (reloadClients host target (snd (connect host req s)))))
    = sends (calls s)
        ++ (sock, reload_frame target)
        :: rev (map (fun c => (socket c, reload_frame target)) (clients s)).
Proof.
  intros host req target s sock response H.
  rewrite connect_run, H. cbn [snd].
  destruct (reloadClients_run host target
              {| clients := clients s ++ [{| path := url req; socket := sock |}];
                 calls := calls s ++ [Upgrade req] |})
    as (evs & -> & Hs & _).
  cbn [snd calls clients] in *.
  rewrite !sends_app, Hs, map_app, rev_app_distr. cbn [sends map rev app socket].
  now rewrite app_nil_r.
Qed.

Lemma reload_serves_the_newest_client_first_witness :
  upgrade_outcome Samples.quiet (calls Scenario.one_open_client) Samples.page
  = inr ({| socket_id := 0; readyState := 1 |}, UpgradeResponse 0)
  /\ sends (calls (snd (reloadClients Samples.quiet None
                          (snd (connect Samples.quiet Samples.page
                                  Scenario.one_open_client)))))
     = [({| socket_id := 0; readyState := 1 |}, JS.lit "reload");
        (Scenario.socketA, JS.lit "reload")].
Proof.
  split; [reflexivity|].
  apply (@reload_serves_the_newest_client_first Samples.quiet Samples.page None
           Scenario.one_open_client {| socket_id := 0; readyState := 1 |}
           (UpgradeResponse 0)).
  reflexivity.
Defined.

(** X7. [connect] does not look for a client with the same address: two
    handshakes for the same request that the host both accepts leave two
    entries with that address, after the entries that were there, in the
    order of the handshakes. *)
Theorem connect_keeps_duplicates :
  forall (host : Host) (req : Request) (s : Server)
         (sock1 sock2 : WebSocket) (response1 response2 : Response),
    upgrade_outcome host (calls s) req = inr (sock1, response1) ->
    upgrade_outcome host (calls s ++ [Upgrade req]) req
    = inr (sock2, response2) ->
    clients (snd (connect host req (snd (connect host req s))))
    = clients s ++ [{| path := url req; socket := sock1 |};
                    {| path := url req; socket := sock2 |}].
Proof.
  intros host req s sock1 sock2 response1 response2 H1 H2.
  rewrite (connect_run host req s), H1. cbn [snd].
  rewrite connect_run. cbn [calls clients]. rewrite H2. cbn [snd clients].
  now rewrite <- app_assoc.
Qed.

Lemma connect_keeps_duplicates_witness :
  upgrade_outcome Samples.quiet (calls httpDevServer) Samples.page
  = inr ({| socket_id := 0; readyState := 1 |}, UpgradeResponse 0)
  /\ upgrade_outcome Samples.quiet (calls httpDevServer ++ [Upgrade Samples.page])
       Samples.page
     = inr ({| socket_id := 1; readyState := 1 |}, UpgradeResponse 1)
  /\ clients (snd (connect Samples.quiet Samples.page
                     (snd (connect Samples.quiet Samples.page httpDevServer))))
     = clients httpDevServer
         ++ [{| path := url Samples.page;
                socket := {| socket_id := 0; readyState := 1 |} |};
             {| path := url Samples.page;
                socket := {| socket_id := 1; readyState := 1 |} |}].
Proof.
  split; [reflexivity|]. split; [reflexivity|].
  apply (@connect_keeps_duplicates Samples.quiet Samples.page httpDevServer
           {| socket_id := 0; readyState := 1 |}
           {| socket_id := 1; readyState := 1 |}
           (UpgradeResponse 0) (UpgradeResponse 1)); reflexivity.
Defined.

(** ** What every state of a server satisfies *)


Lemma from_handshake_later (host : Host) (cs : list Client) (tr evs : list Event)
    (cs' : list Client) (c : Client) :
  from_handshake host {| clients := cs; calls := tr |} c ->
  from_handshake host {| clients := cs'; calls := tr ++ evs |} c.
Proof.
  intros (before & later & req & response & E & H).
  exists before, (later ++ evs), req, response. cbn [calls] in *.
  split; [|exact H]. rewrite E, <- app_assoc. reflexivity.
Qed.

(** Each call keeps the registry made of clients that come from a
    handshake. *)
Lemma after_keeps_from_handshake (host : Host)
    (stringify_log : LogRecord -> JS.str -> JS.str) (c : Call) (s : Server) :
  Forall (from_handshake host s) (clients s) ->
  Forall (from_handshake host (after host stringify_log c s))
    (clients (after host stringify_log c s)).
Proof.
  intros H. destruct s as [cs tr].
  destruct c as [req|target|logRecord msg]; unfold after.
  - rewrite connect_run. cbn [calls clients].
    destruct (upgrade_outcome host tr req) as [e|[sock response]] eqn:E;
      cbn [snd clients].
    + eapply Forall_impl; [|exact H]. intros c. apply from_handshake_later.
    + apply Forall_app. split.
      * eapply Forall_impl; [|exact H]. intros c. apply from_handshake_later.
      * constructor; [|constructor].
        exists tr, [], req, response. cbn. auto.
  - rewrite reloadClients_exact. cbn [snd clients]. constructor.
  - rewrite onLog_exact. cbn [snd clients].
    eapply Forall_impl; [|exact H]. intros c. apply from_handshake_later.
Qed.

(** X8. Whatever calls a server has gone through since it was created,
    on whatever host, every client in its registry comes from a handshake:
    its socket is the one the host returned for an upgrade that is recorded
    among the calls, and its address is the address of the upgraded
    request. No other code puts a client in the registry. *)
Theorem registry_holds_handshake_clients :
  forall (host : Host) (stringify_log : LogRecord -> JS.str -> JS.str)
         (history : list Call),
    Forall (from_handshake host (run host stringify_log history httpDevServer))
      (clients (run host stringify_log history httpDevServer)).
Proof.
  intros host stringify_log history. unfold run.
  assert (H : Forall (from_handshake host httpDevServer) (clients httpDevServer))
    by constructor.
  revert H. generalize httpDevServer.
  induction history as [|c history IH]; intros s H; cbn [fold_left].
  - exact H.
  - apply IH. now apply after_keeps_from_handshake.
Qed.

Example run_sample :
  run Scenario.host Scenario.stringify_log
    [CallConnect Scenario.accepted; CallConnect Scenario.refused;
     CallLog Scenario.record (JS.lit "done"); CallConnect Scenario.accepted]
    httpDevServer
  = {| clients :=
         [{| path := JS.lit "/doc.html";
             socket := {| socket_id := 10; readyState := 1 |} |};
          {| path := JS.lit "/doc.html";
             socket := {| socket_id := 14; readyState := 1 |} |}];
       calls :=
         [Upgrade Scenario.accepted; Upgrade Scenario.refused;
          Diagnostic TypeError;
          Send {| socket_id := 10; readyState := 1 |}
            (JS.lit "log:{rendered,done}");
          Upgrade Scenario.accepted] |}.
Proof. reflexivity. Qed.

(** ** The bytes of a string *)

Lemma utf8_length (cp : Z) :
  1 <= List.length (TextEncoder.utf8 cp) <= 4
  /\ ((cp < 0x10000)%Z -> List.length (TextEncoder.utf8 cp) <= 3)
  /\ ((0x10000 <= cp)%Z -> List.length (TextEncoder.utf8 cp) = 4).
Proof.
  unfold TextEncoder.utf8.
  destruct (Z.ltb_spec cp 0x80), (Z.ltb_spec cp 0x800),
    (Z.ltb_spec cp 0x10000); cbn [List.length]; repeat split; intros; lia.
Qed.

Lemma pair_code_point_range (c d : Z) :
  TextEncoder.is_lead c = true -> TextEncoder.is_trail d = true ->
  (0x10000 <= TextEncoder.pair_code_point c d < 0x110000)%Z.
Proof.
  unfold TextEncoder.is_lead, TextEncoder.is_trail, TextEncoder.pair_code_point.
  rewrite !andb_true_iff, !Z.leb_le. intros [Hc1 Hc2] [Hd1 Hd2].
  rewrite Z.shiftl_mul_pow2 by lia. change (2 ^ 10)%Z with 1024%Z. lia.
Qed.

(** A string of [n] code units takes [n] bytes at least and [3 * n] at
    most. *)
Lemma encode_length (s : JS.str) :
  code_units s ->
  List.length s <= List.length (TextEncoder.encode s) <= 3 * List.length s.
Proof.
  assert (Hle : List.length s <= List.length s) by lia.
  revert Hle. generalize (List.length s) at 2. intros n. revert s.
  induction n as [|n IH]; intros [|c rest] Hle Hs; cbn [List.length] in *;
    try lia; try (cbn; lia).
  apply Forall_cons_iff in Hs. destruct Hs as [Hc Hrest].
  cbn [TextEncoder.encode].
  destruct (utf8_length 0xFFFD) as (_ & Hrep & _). specialize (Hrep eq_refl).
  destruct (utf8_length 0xFFFD) as (Hrep1 & _).
  destruct (TextEncoder.is_lead c) eqn:Hlead.
  - destruct rest as [|d rest'].
    + cbn [List.length]. lia.
    + destruct (TextEncoder.is_trail d) eqn:Htrail.
      * apply Forall_cons_iff in Hrest. destruct Hrest as [Hd Hrest'].
        pose proof (pair_code_point_range _ _ Hlead Htrail) as [Hp _].
        destruct (utf8_length (TextEncoder.pair_code_point c d)) as (_ & _ & H4).
        rewrite length_app, (H4 Hp).
        cbn [List.length] in *.
        assert (Hr : List.length rest' <= n) by lia.
        pose proof (IH rest' Hr Hrest'). lia.
      * rewrite length_app.
        assert (Hr : List.length (d :: rest') <= n) by lia.
        pose proof (IH (d :: rest') Hr Hrest). lia.
  - assert (Hr : List.length rest <= n) by lia.
    pose proof (IH rest Hr Hrest) as Hb.
    destruct (TextEncoder.is_trail c); rewrite length_app.
    + lia.
    + destruct (utf8_length c) as (H1 & H3 & _). specialize (H3 (proj2 Hc)). lia.
Qed.

(** A string of ASCII characters is its own encoding. *)
Lemma encode_ascii (s : JS.str) : ascii_only s -> TextEncoder.encode s = s.
Proof.
  induction 1 as [|c rest Hc _ IH]; [reflexivity|].
  cbn [TextEncoder.encode].
  assert (Hlead : TextEncoder.is_lead c = false).
  { unfold TextEncoder.is_lead. apply andb_false_iff. left.
    apply Z.leb_gt. lia. }
  assert (Htrail : TextEncoder.is_trail c = false).
  { unfold TextEncoder.is_trail. apply andb_false_iff. left.
    apply Z.leb_gt. lia. }
  rewrite Hlead, Htrail, IH. unfold TextEncoder.utf8.
  destruct (Z.ltb_spec c 0x80); [reflexivity|lia].
Qed.

Lemma encode_cons (x : Z) (rest : JS.str) :
  TextEncoder.encode (x :: rest)
  = if TextEncoder.is_lead x then
      match rest with
      | d :: rest' =>
          if TextEncoder.is_trail d
          then TextEncoder.utf8 (TextEncoder.pair_code_point x d)
                 ++ TextEncoder.encode rest'
          else TextEncoder.utf8 0xFFFD ++ TextEncoder.encode rest
      | [] => TextEncoder.utf8 0xFFFD
      end
    else if TextEncoder.is_trail x
         then TextEncoder.utf8 0xFFFD ++ TextEncoder.encode rest
         else TextEncoder.utf8 x ++ TextEncoder.encode rest.
Proof. reflexivity. Qed.

(** A code unit that is not a trail surrogate starts afresh: what comes
    before it and what comes from it on are encoded apart. *)
Lemma encode_app (c : Z) (b : JS.str) :
  TextEncoder.is_trail c = false ->
  forall a,
    TextEncoder.encode (a ++ c :: b)
    = TextEncoder.encode a ++ TextEncoder.encode (c :: b).
Proof.
  intros Hc a.
  assert (Hle : List.length a <= List.length a) by lia.
  revert Hle. generalize (List.length a) at 2. intros n. revert a.
  induction n as [|n IH]; intros [|x a] Hle; cbn [List.length] in *;
    try lia; try reflexivity.
  change ((x :: a) ++ c :: b) with (x :: (a ++ c :: b)).
  rewrite (encode_cons x (a ++ c :: b)), (encode_cons x a).
  destruct (TextEncoder.is_lead x).
  - destruct a as [|y a'].
    + cbn [app]. now rewrite Hc.
    + change ((y :: a') ++ c :: b) with (y :: (a' ++ c :: b)).
      cbv beta iota.
      destruct (TextEncoder.is_trail y).
      * cbn [List.length] in Hle. rewrite (IH a') by lia.
        now rewrite app_assoc.
      * change (y :: (a' ++ c :: b)) with ((y :: a') ++ c :: b).
        rewrite (IH (y :: a')) by lia. now rewrite app_assoc.
  - destruct (TextEncoder.is_trail x); rewrite (IH a) by lia;
      now rewrite app_assoc.
Qed.

Lemma lor_octet (a b : Z) :
  (0 <= a < 0x100)%Z -> (0 <= b < 0x100)%Z -> (0 <= Z.lor a b < 0x100)%Z.
Proof.
  intros Ha Hb.
  assert (Hnn : (0 <= Z.lor a b)%Z) by (apply Z.lor_nonneg; lia).
  split; [exact Hnn|].
  destruct (Z.eq_dec (Z.lor a b) 0) as [->|Hne]; [lia|].
  change 0x100%Z with (2 ^ 8)%Z.
  apply Z.log2_lt_pow2; [lia|].
  rewrite Z.log2_lor by lia.
  assert (Hlog : forall x, (0 <= x < 2 ^ 8)%Z -> (Z.log2 x < 8)%Z).
  { intros x Hx. destruct (Z.eq_dec x 0) as [->|]; [cbn; lia|].
    apply Z.log2_lt_pow2; lia. }
  apply Z.max_lub_lt; apply Hlog; change (2 ^ 8)%Z with 0x100%Z; lia.
Qed.

Lemma land_low_six (x : Z) : (0 <= Z.land x 0x3F < 0x40)%Z.
Proof.
  change 0x3F%Z with (Z.ones 6). rewrite Z.land_ones by lia.
  change (2 ^ 6)%Z with 0x40%Z. apply Z.mod_pos_bound. lia.
Qed.

Lemma shiftr_bound (x k limit : Z) :
  (0 <= k)%Z -> (0 <= x < limit * 2 ^ k)%Z -> (0 <= Z.shiftr x k < limit)%Z.
Proof.
  intros Hk Hx. rewrite Z.shiftr_div_pow2 by lia.
  assert (Hpos : (0 < 2 ^ k)%Z) by (apply Z.pow_pos_nonneg; lia).
  split.
  - apply Z.div_pos; lia.
  - apply Z.div_lt_upper_bound; lia.
Qed.

(** The UTF-8 bytes of a code point are 8-bit values. *)
Lemma utf8_octets (cp : Z) :
  (0 <= cp < 0x110000)%Z -> octets (TextEncoder.utf8 cp).
Proof.
  intros Hcp. unfold TextEncoder.utf8, octets.
  pose proof (land_low_six cp).
  pose proof (land_low_six (Z.shiftr cp 6)).
  pose proof (land_low_six (Z.shiftr cp 12)).
  destruct (Z.ltb_spec cp 0x80); [|destruct (Z.ltb_spec cp 0x800);
    [|destruct (Z.ltb_spec cp 0x10000)]].
  - repeat constructor; lia.
  - pose proof (@shiftr_bound cp 6 0x20).
    repeat constructor; apply lor_octet; lia.
  - pose proof (@shiftr_bound cp 12 0x10).
    repeat constructor; apply lor_octet; lia.
  - pose proof (@shiftr_bound cp 18 0x5).
    repeat constructor; apply lor_octet; lia.
Qed.

(** The bytes of a string are 8-bit values. *)
Lemma encode_octets (s : JS.str) :
  code_units s -> octets (TextEncoder.encode s).
Proof.
  assert (Hle : List.length s <= List.length s) by lia.
  revert Hle. generalize (List.length s) at 2. intros n. revert s.
  assert (Hrep : octets (TextEncoder.utf8 0xFFFD)) by (apply utf8_octets; lia).
  induction n as [|n IH]; intros [|c rest] Hle Hs; cbn [List.length] in *;
    try lia; try constructor.
  apply Forall_cons_iff in Hs. destruct Hs as [Hc Hrest].
  rewrite encode_cons.
  destruct (TextEncoder.is_lead c) eqn:Hlead.
  - destruct rest as [|d rest']; [exact Hrep|].
    destruct (TextEncoder.is_trail d) eqn:Htrail; apply Forall_app; split.
    + apply utf8_octets.
      pose proof (pair_code_point_range _ _ Hlead Htrail). lia.
    + apply Forall_cons_iff in Hrest. destruct Hrest as [_ Hrest'].
      cbn [List.length] in Hle. apply IH; [lia|exact Hrest'].
    + exact Hrep.
    + apply IH; [lia|exact Hrest].
  - destruct (TextEncoder.is_trail c); apply Forall_app; split;
      try exact Hrep; try (apply IH; [lia|exact Hrest]).
    apply utf8_octets. lia.
Qed.

(** ** More on the script and its injection *)

Section InjectorMore.

Variable FormatPandoc : Type.
Variable isRevealjsOutput : FormatPandoc -> bool.
Variable renderEjs : JS.str -> list (string * EjsValue) -> JS.str.
Variable resourcePath : JS.str -> JS.str.
Variable kLocalhost : JS.str.

Local Abbreviation script :=
  (devServerClientScript isRevealjsOutput renderEjs resourcePath kLocalhost).
Local Abbreviation fragments := (devserver_fragments isRevealjsOutput kLocalhost).
Local Abbreviation inject :=
  (injectClient isRevealjsOutput renderEjs resourcePath kLocalhost).
Local Abbreviation rendered := (render renderEjs resourcePath).

(** The variant that [devServerClientScript] puts after the core
    fragment. *)
Lemma fragments_exact (port : Z) (inputFile : option JS.str)
    (format : option (Format FormatPandoc)) (isPresentation : option bool) :
  fragments port inputFile format isPresentation
  = [core_fragment kLocalhost port;
     if is_revealjs_presentation isRevealjsOutput format isPresentation
     then revealjs_fragment
     else viewer_fragment (JS.or_str inputFile [])].
Proof.
  unfold devserver_fragments, is_revealjs_presentation.
  destruct isPresentation as [[|]|], format as [f|]; try reflexivity.
  now destruct (isRevealjsOutput (pandoc f)).
Qed.

(** What [injectClient] returns: the encoded script is allocated first,
    the result after it. *)
Lemma injectClient_exact (port : Z) (isPresentation : option bool)
    (file : Uint8Array.ref) (inputFile : option JS.str)
    (format : option (Format FormatPandoc)) (h : Uint8Array.Heap)
    (bytes : list Z) :
  Uint8Array.contents h file = Some bytes ->
  inject port isPresentation file inputFile format h
  = Some (S (List.length h),
          h ++ [10%Z :: TextEncoder.encode
                          (script port inputFile format isPresentation);
                bytes ++ 10%Z :: TextEncoder.encode
                                   (script port inputFile format isPresentation)]).
Proof.
  intros Hfile.
  pose proof (nth_error_in_range _ _ Hfile) as Hlt.
  set (enc := TextEncoder.encode (script port inputFile format isPresentation)).
  set (h1 := h ++ [10%Z :: enc]).
  set (zeros := repeat 0%Z (List.length bytes + S (List.length enc))).
  assert (Hlen1 : List.length h1 = S (List.length h))
    by (unfold h1; rewrite length_app; cbn; lia).
  assert (Hfile1 : Uint8Array.contents h1 file = Some bytes)
    by (unfold h1; now rewrite contents_old).
  assert (Hsc1 : Uint8Array.contents h1 (List.length h) = Some (10%Z :: enc))
    by apply contents_new.
  assert (Hz : List.length zeros = List.length bytes + S (List.length enc))
    by apply repeat_length.
  unfold injectClient, Uint8Array.encode, Uint8Array.length, Uint8Array.new.
  rewrite encode_newline. fold enc. fold h1.
  rewrite Hfile1, Hsc1. cbn [option_map List.length]. fold zeros.
  rewrite Hlen1. unfold Uint8Array.set.
  rewrite <- Hlen1 at 1 2. rewrite contents_new.
  rewrite (contents_old h1 zeros) by lia. rewrite Hfile1, Hz.
  destruct (Nat.leb_spec (0 + List.length bytes)
              (List.length bytes + S (List.length enc))); [|lia].
  rewrite <- Hlen1, store_last. rewrite contents_new.
  rewrite (contents_old h1) by lia. rewrite Hsc1.
  cbn [firstn app plus List.length].
  rewrite length_app, length_skipn, Hz.
  replace (List.length bytes + S (List.length enc) - List.length bytes)
    with (S (List.length enc)) by lia.
  rewrite Nat.leb_refl, store_last.
  rewrite firstn_app, firstn_all, Nat.sub_diag, firstn_O, app_nil_r.
  rewrite skipn_all2 by (rewrite length_app, length_skipn, Hz; lia).
  rewrite app_nil_r, Hlen1. unfold h1. rewrite <- app_assoc. reflexivity.
Qed.

(** X9. The size of the array [injectClient] returns, in terms of the
    script text: when the text is made of 16-bit code units, the array has
    between one and three bytes for each of them, on top of the input bytes
    and the newline; and when the text is ASCII it has one byte for each, so
    its length is the input length plus the text length plus one. *)
Theorem injectClient_size :
  forall (port : Z) (isPresentation : option bool) (file : Uint8Array.ref)
         (inputFile : option JS.str) (format : option (Format FormatPandoc))
         (h : Uint8Array.Heap) (bytes : list Z),
    Uint8Array.contents h file = Some bytes ->
    code_units (script port inputFile format isPresentation) ->
    exists out h' size,
      inject port isPresentation file inputFile format h = Some (out, h')
      /\ Uint8Array.length h' out = Some size
      /\ List.length bytes
         + List.length (script port inputFile format isPresentation) + 1
         <= size
      /\ size
         <= List.length bytes
            + 3 * List.length (script port inputFile format isPresentation) + 1
      /\ (ascii_only (script port inputFile format isPresentation) ->
          size
          = List.length bytes
            + List.length (script port inputFile format isPresentation) + 1).
Proof.
  intros port isPresentation file inputFile format h bytes Hfile Hunits.
  rewrite (injectClient_exact port isPresentation file inputFile format h Hfile).
  set (text := script port inputFile format isPresentation) in *.
  exists (S (List.length h)),
    (h ++ [10%Z :: TextEncoder.encode text;
           bytes ++ 10%Z :: TextEncoder.encode text]),
    (List.length (bytes ++ 10%Z :: TextEncoder.encode text)).
  pose proof (encode_length Hunits) as Hb.
  rewrite length_app. cbn [List.length].
  repeat split; try lia.
  - unfold Uint8Array.length, Uint8Array.contents.
    rewrite nth_error_app2 by lia.
    replace (S (List.length h) - List.length h) with 1 by lia.
    cbn [nth_error option_map]. now rewrite length_app.
  - intros Hascii. rewrite (encode_ascii Hascii). lia.
Qed.

(** X10. [injectClient] writes bytes: when the input array holds 8-bit
    values and the script text is made of 16-bit code units, every element
    of the array it returns is an 8-bit value, so no element is cut down when
    it is stored. *)
Theorem injectClient_writes_octets :
  forall (port : Z) (isPresentation : option bool) (file : Uint8Array.ref)
         (inputFile : option JS.str) (format : option (Format FormatPandoc))
         (h : Uint8Array.Heap) (bytes : list Z),
    Uint8Array.contents h file = Some bytes ->
    octets bytes ->
    code_units (script port inputFile format isPresentation) ->
    exists out h' result,
      inject port isPresentation file inputFile format h = Some (out, h')
      /\ Uint8Array.contents h' out = Some result
      /\ octets result.
Proof.
  intros port isPresentation file inputFile format h bytes Hfile Hbytes Hunits.
  rewrite (injectClient_exact port isPresentation file inputFile format h Hfile).
  set (text := script port inputFile format isPresentation) in *.
  exists (S (List.length h)),
    (h ++ [10%Z :: TextEncoder.encode text;
           bytes ++ 10%Z :: TextEncoder.encode text]),
    (bytes ++ 10%Z :: TextEncoder.encode text).
  repeat split.
  - unfold Uint8Array.contents. rewrite nth_error_app2 by lia.
    replace (S (List.length h) - List.length h) with 1 by lia. reflexivity.
  - apply Forall_app. split; [exact Hbytes|].
    constructor; [lia|]. now apply encode_octets.
Qed.

(** X11. The bytes that [injectClient] puts after the input are a
    newline, the UTF-8 bytes of the rendered core fragment, a newline, and
    the UTF-8 bytes of the rendered variant: the two fragments are encoded
    apart, whatever code units they end and start with. *)
Theorem injectClient_appends_the_fragments :
  forall (port : Z) (isPresentation : option bool) (file : Uint8Array.ref)
         (inputFile : option JS.str) (format : option (Format FormatPandoc))
         (h : Uint8Array.Heap) (bytes : list Z),
    Uint8Array.contents h file = Some bytes ->
    exists out h',
      inject port isPresentation file inputFile format h = Some (out, h')
      /\ Uint8Array.contents h' out
         = Some (bytes
                   ++ [10%Z]
                   ++ TextEncoder.encode (rendered (core_fragment kLocalhost port))
                   ++ [10%Z]
                   ++ TextEncoder.encode
                        (rendered
                           (if is_revealjs_presentation isRevealjsOutput format
                                 isPresentation
                            then revealjs_fragment
                            else viewer_fragment (JS.or_str inputFile [])))).
Proof.
  intros port isPresentation file inputFile format h bytes Hfile.
  rewrite (injectClient_exact port isPresentation file inputFile format h Hfile).
  eexists _, _. split; [reflexivity|].
  unfold Uint8Array.contents. rewrite nth_error_app2 by lia.
  replace (S (List.length h) - List.length h) with 1 by lia.
  cbn [nth_error]. do 2 f_equal.
  unfold devServerClientScript. rewrite fragments_exact.
  cbn [map JS.join]. unfold JS.newline. cbn [app].
  rewrite (@encode_app 10%Z _ eq_refl). reflexivity.
Qed.

(** X12. [injectClient] does not look for a script that is already
    there: given its own result, it appends the script once more, after the
    first copy, in one more new array. *)
Theorem injectClient_twice :
  forall (port : Z) (isPresentation : option bool) (file : Uint8Array.ref)
         (inputFile : option JS.str) (format : option (Format FormatPandoc))
         (h : Uint8Array.Heap) (bytes : list Z),
    Uint8Array.contents h file = Some bytes ->
    exists out h' out2 h'',
      inject port isPresentation file inputFile format h = Some (out, h')
      /\ inject port isPresentation out inputFile format h' = Some (out2, h'')
      /\ out2 <> out
      /\ Uint8Array.contents h'' out2
         = Some (bytes
                   ++ (10%Z :: TextEncoder.encode
                                 (script port inputFile format isPresentation))
                   ++ (10%Z :: TextEncoder.encode
                                 (script port inputFile format isPresentation)))
      /\ Uint8Array.contents h'' out
         = Some (bytes
                   ++ (10%Z :: TextEncoder.encode
                                 (script port inputFile format isPresentation))).
Proof.
  intros port isPresentation file inputFile format h bytes Hfile.
  set (enc := TextEncoder.encode (script port inputFile format isPresentation)).
  rewrite (injectClient_exact port isPresentation file inputFile format h Hfile).
  fold enc.
  assert (Hout : Uint8Array.contents (h ++ [10%Z :: enc; bytes ++ 10%Z :: enc])
                   (S (List.length h)) = Some (bytes ++ 10%Z :: enc)).
  { unfold Uint8Array.contents. rewrite nth_error_app2 by lia.
    replace (S (List.length h) - List.length h) with 1 by lia. reflexivity. }
  eexists _, _, _, _. split; [reflexivity|].
  rewrite (injectClient_exact port isPresentation _ inputFile format _ Hout).
  fold enc. split; [reflexivity|].
  rewrite length_app. cbn [List.length]. repeat split.
  - lia.
  - unfold Uint8Array.contents. rewrite nth_error_app2
      by (rewrite length_app; cbn [List.length]; lia).
    rewrite length_app. cbn [List.length].
    replace (S (List.length h + 2) - (List.length h + 2)) with 1 by lia.
    cbn [nth_error]. now rewrite <- app_assoc.
  - unfold Uint8Array.contents.
    rewrite nth_error_app1 by (rewrite length_app; cbn [List.length]; lia).
    exact Hout.
Qed.

(** X13. The array that [devServerClientScript] joins always holds two
    fragments, the core fragment first: the second test of
    [isRevealjsOutput], inside the branch that the first one guards, never
    lets the variant out. *)
Theorem devserver_has_two_fragments :
  forall (port : Z) (inputFile : option JS.str)
         (format : option (Format FormatPandoc)) (isPresentation : option bool),
    List.length (fragments port inputFile format isPresentation) = 2
    /\ hd_error (fragments port inputFile format isPresentation)
       = Some (core_fragment kLocalhost port).
Proof.
  intros. rewrite fragments_exact. split; reflexivity.
Qed.

(** X14. What the input file does to the script: an empty name gives
    the script that no name gives, and when the presentation variant is
    chosen the name is not used at all. *)
Theorem script_and_input_file :
  forall (port : Z) (format : option (Format FormatPandoc))
         (isPresentation : option bool),
    script port (Some (JS.lit "")) format isPresentation
    = script port None format isPresentation
    /\ (forall inputFile inputFile',
           is_revealjs_presentation isRevealjsOutput format isPresentation = true ->
           script port inputFile format isPresentation
           = script port inputFile' format isPresentation).
Proof.
  intros port format isPresentation. unfold devServerClientScript.
  split.
  - now rewrite !fragments_exact.
  - intros inputFile inputFile' H. rewrite !fragments_exact, H. reflexivity.
Qed.

End InjectorMore.

(** ** Checking sample strings and arrays *)

Lemma code_units_check (s : JS.str) :
  forallb (fun c => (0 <=? c)%Z && (c <? 0x10000)%Z) s = true -> code_units s.
Proof.
  intros H. apply Forall_forall. intros c Hc.
  rewrite forallb_forall in H. specialize (H c Hc).
  apply andb_true_iff in H. destruct H as [H1 H2].
  apply Z.leb_le in H1. apply Z.ltb_lt in H2. lia.
Qed.

Lemma octets_check (l : list Z) :
  forallb (fun c => (0 <=? c)%Z && (c <? 0x100)%Z) l = true -> octets l.
Proof.
  intros H. apply Forall_forall. intros c Hc.
  rewrite forallb_forall in H. specialize (H c Hc).
  apply andb_true_iff in H. destruct H as [H1 H2].
  apply Z.leb_le in H1. apply Z.ltb_lt in H2. lia.
Qed.

Lemma injectClient_size_witness :
  Uint8Array.contents Scenario.heap 0 = Some [60; 112; 62]%Z
  /\ code_units
       (devServerClientScript (fun _ : unit => true) Scenario.renderEjs
          Scenario.resourcePath Scenario.kLocalhost 4200 (Some (JS.lit "input.qmd"))
          None (Some false))
  /\ exists out h' size,
       injectClient (fun _ : unit => true) Scenario.renderEjs
         Scenario.resourcePath Scenario.kLocalhost 4200 (Some false) 0
         (Some (JS.lit "input.qmd")) None Scenario.heap = Some (out, h')
       /\ Uint8Array.length h' out = Some size
       /\ 3 + 1 <= size.
Proof.
  split; [reflexivity|]. split; [apply code_units_check; reflexivity|].
  destruct (@injectClient_size unit (fun _ => true) Scenario.renderEjs
              Scenario.resourcePath Scenario.kLocalhost 4200%Z (Some false) 0
              (Some (JS.lit "input.qmd")) None Scenario.heap [60; 112; 62]%Z
              eq_refl ltac:(apply code_units_check; reflexivity))
    as (out & h' & size & H1 & H2 & H3 & _).
  exists out, h', size. repeat split; try assumption.
  cbn [List.length] in H3. lia.
Defined.

Lemma injectClient_writes_octets_witness :
  Uint8Array.contents Scenario.heap 0 = Some [60; 112; 62]%Z
  /\ octets [60; 112; 62]%Z
  /\ code_units
       (devServerClientScript (fun _ : unit => true) Scenario.renderEjs
          Scenario.resourcePath Scenario.kLocalhost 4200 (Some (JS.lit "input.qmd"))
          None (Some false))
  /\ exists out h' result,
       injectClient (fun _ : unit => true) Scenario.renderEjs
         Scenario.resourcePath Scenario.kLocalhost 4200 (Some false) 0
         (Some (JS.lit "input.qmd")) None Scenario.heap = Some (out, h')
       /\ Uint8Array.contents h' out = Some result
       /\ octets result.
Proof.
  split; [reflexivity|]. split; [apply octets_check; reflexivity|].
  split; [apply code_units_check; reflexivity|].
  apply (@injectClient_writes_octets unit (fun _ => true) Scenario.renderEjs
           Scenario.resourcePath Scenario.kLocalhost 4200%Z (Some false) 0
           (Some (JS.lit "input.qmd")) None Scenario.heap [60; 112; 62]%Z
           eq_refl ltac:(apply octets_check; reflexivity) ltac:(apply code_units_check; reflexivity)).
Defined.

Lemma injectClient_appends_the_fragments_witness :
  Uint8Array.contents Scenario.heap 0 = Some [60; 112; 62]%Z
  /\ exists out h',
       injectClient (fun _ : unit => true) Scenario.renderEjs
         Scenario.resourcePath Scenario.kLocalhost 4200 (Some true) 0
         None (Some {| pandoc := tt |}) Scenario.heap = Some (out, h')
       /\ Uint8Array.contents h' out
          = Some ([60; 112; 62]%Z
                    ++ [10%Z]
                    ++ TextEncoder.encode
                         (render Scenario.renderEjs Scenario.resourcePath
                            (core_fragment Scenario.kLocalhost 4200))
                    ++ [10%Z]
                    ++ TextEncoder.encode
                         (render Scenario.renderEjs Scenario.resourcePath
                            revealjs_fragment)).
Proof.
  split; [reflexivity|].
  apply (@injectClient_appends_the_fragments unit (fun _ => true)
           Scenario.renderEjs Scenario.resourcePath Scenario.kLocalhost 4200%Z
           (Some true) 0 None (Some {| pandoc := tt |}) Scenario.heap
           [60; 112; 62]%Z eq_refl).
Defined.

Lemma injectClient_twice_witness :
  Uint8Array.contents Scenario.heap 0 = Some [60; 112; 62]%Z
  /\ exists out h' out2 h'',
       injectClient (fun _ : unit => true) Scenario.renderEjs
         Scenario.resourcePath Scenario.kLocalhost 4200 (Some false) 0
         None None Scenario.heap = Some (out, h')
       /\ injectClient (fun _ : unit => true) Scenario.renderEjs
            Scenario.resourcePath Scenario.kLocalhost 4200 (Some false) out
            None None h' = Some (out2, h'')
       /\ out2 <> out.
Proof.
  split; [reflexivity|].
  destruct (@injectClient_twice unit (fun _ => true) Scenario.renderEjs
              Scenario.resourcePath Scenario.kLocalhost 4200%Z (Some false) 0
              None None Scenario.heap [60; 112; 62]%Z eq_refl)
    as (out & h' & out2 & h'' & H1 & H2 & H3 & _).
  exists out, h', out2, h''. repeat split; assumption.
Defined.

(** ** The handshake that succeeds, and the two kinds of frame *)

(** X15. When the host accepts the upgrade, [connect] resolves to the
    response the host made, registers the socket the host made under the
    address of the request, and makes no other call: nothing is sent to the
    new client and nothing is reported. *)
Theorem connect_upgrade_success :
  forall (host : Host) (req : Request) (s : Server) (sock : WebSocket)
         (response : Response),
    upgrade_outcome host (calls s) req = inr (sock, response) ->
    connect host req s
    = (Normal (Some response),
       {| clients := clients s ++ [{| path := url req; socket := sock |}];
          calls := calls s ++ [Upgrade req] |}).
Proof.
  intros host req s sock response H. now rewrite connect_run, H.
Qed.

Lemma connect_upgrade_success_witness :
  upgrade_outcome Scenario.host (calls Scenario.registry) Scenario.accepted
  = inr ({| socket_id := 10; readyState := 1 |}, UpgradeResponse 0)
  /\ connect Scenario.host Scenario.accepted Scenario.registry
     = (Normal (Some (UpgradeResponse 0)),
        {| clients :=
             clients Scenario.registry
               ++ [{| path := url Scenario.accepted;
                      socket := {| socket_id := 10; readyState := 1 |} |}];
           calls := calls Scenario.registry ++ [Upgrade Scenario.accepted] |}).
Proof.
  split; [reflexivity|].
  apply (@connect_upgrade_success Scenario.host Scenario.accepted
           Scenario.registry {| socket_id := 10; readyState := 1 |}
           (UpgradeResponse 0)).
  reflexivity.
Defined.

(** X16. A client can tell the two kinds of frame by their first code
    unit, and read the payload back: a reload frame is never a log frame,
    whatever the target and whatever the record serialises to; dropping the
    six code units of ["reload"] gives the target back (the empty string when
    there was none), and dropping the four of ["log:"] gives the serialised
    record back. *)
Theorem frames_are_told_apart :
  forall (stringify_log : LogRecord -> JS.str -> JS.str)
         (target : option JS.str) (logRecord : LogRecord) (msg : JS.str),
    reload_frame target <> log_frame stringify_log logRecord msg
    /\ hd_error (reload_frame target) = Some 114%Z
    /\ hd_error (log_frame stringify_log logRecord msg) = Some 108%Z
    /\ skipn 6 (reload_frame target)
       = match target with Some t => t | None => JS.lit "" end
    /\ skipn 4 (log_frame stringify_log logRecord msg)
       = stringify_log logRecord msg.
Proof.
  intros stringify_log target logRecord msg.
  repeat split; try reflexivity.
  intros H. apply (f_equal (@hd_error Z)) in H. discriminate.
Qed.
